(** * Range sync orchestrator (packages/lodestar/src/sync/range/range.ts)

    A shallow embedding of [RangeSync]: the map of [SyncChain]s keyed by
    chain id, peer routing ([addPeer], [removePeer]), the derived
    [syncState], the [update] pass with its eviction loop, the continuation
    of [runChain], the abort listener and the two collaborator callbacks
    ([processChainSegment], [downloadBeaconBlocksByRange]).

    [SyncChain] objects are mutable and shared by reference between the
    [chains] map, the arrays returned by [updateChains] and the pending
    [runChain] calls, so the embedding keeps an explicit object store and
    the map holds references into it.  Every call on a collaborator is
    appended to a trace, in program order. *)

From Stdlib Require Import NArith Ascii String DecimalString DecimalN.
From Stdlib Require Strings.Byte.
From stdpp Require Import base list sets strings.

Local Open Scope string_scope.
Local Open Scope list_scope.
Local Open Scope N_scope.

(** ** Primitive types *)

(** [Slot] and [Epoch] are JavaScript numbers holding unsigned counters. *)
Abbreviation Slot := N.
Abbreviation Epoch := N.
Abbreviation Root := (list Byte.byte).
(** A [PeerId] is identified by its base58 string ([toB58String]). *)
Abbreviation PeerId := string.

(** phase0.Status, restricted to the fields range.ts reads. *)
Record Status := {
  finalizedRoot : Root;
  finalizedEpoch : Epoch;
  headRoot : Root;
  headSlot : Slot;
}.

Record ChainTarget := { slot : Slot; root : Root }.

Module RangeSyncType.
(** Modelled from the spec: enum RangeSyncType of ../utils/remoteSyncType,
    "Finalized | Head". *)
Inductive t := Finalized | Head.

(** Modelled from the spec: the members are rendered by their names when
    interpolated in a template literal.  The results below only use that
    the two renderings differ and contain no dash. *)
Definition toString (ty : t) : string :=
  match ty with Finalized => "Finalized" | Head => "Head" end.

Definition eqb (a b : t) : bool :=
  match a, b with
  | Finalized, Finalized | Head, Head => true
  | _, _ => false
  end.
End RangeSyncType.

#[global] Instance RangeSyncType_eq_dec : EqDecision RangeSyncType.t.
Proof. solve_decision. Defined.

Inductive RangeSyncState :=
| StatusFinalized (target : ChainTarget)
| StatusHead (targets : list ChainTarget)
| StatusIdle.

(** ** Rendering of chain ids *)

(** The decimal digits of a non-negative integer. *)
Definition decimal (n : N) : string := NilEmpty.string_of_uint (N.to_uint n).

(** The Number value of a non-negative integer: the nearest double (53
    significant bits), a tie going to the even significand.  From 2^1024 on
    the result stands for Infinity. *)
Definition toNumber (n : N) : N :=
  if n <? 2 ^ 53 then n
  else
    let e := N.log2 n - 52 in
    let q := N.shiftr n e in
    let r := n - N.shiftl q e in
    let half := 2 ^ (e - 1) in
    let q := if (half <? r) || ((r =? half) && N.odd q) then q + 1 else q in
    N.shiftl q e.

(** The integers a JavaScript number holds exactly: a slot or an epoch of
    the source is one of these. *)
Definition isNumber (n : N) : Prop := toNumber n = n ∧ n < 2 ^ 1024.

(** Number::toString, step 5: among the multiples of [10 ^ j] whose Number
    value is [x], the one closest to [x], on a tie the one with the even
    digit string. *)
Definition candidate (x : N) (j : nat) : option N :=
  let p := 10 ^ N.of_nat j in
  let lo := x / p * p in
  let hi := lo + p in
  match toNumber lo =? x, toNumber hi =? x with
  | true, false => Some lo
  | false, true => Some hi
  | true, true =>
      if x - lo <? hi - x then Some lo
      else if hi - x <? x - lo then Some hi
      else if N.even (lo / p) then Some lo else Some hi
  | false, false => None
  end.

(** The decimal with the fewest significant digits whose Number value is
    [x]: the largest [j] is tried first. *)
Fixpoint shortest_from (j : nat) (x : N) : N :=
  match candidate x j with
  | Some v => v
  | None => match j with O => x | S j => shortest_from j x end
  end.

Fixpoint trimZeros (s : string) : string :=
  match s with
  | EmptyString => EmptyString
  | String c rest =>
      match trimZeros rest with
      | EmptyString =>
          if Ascii.eqb c "0" then EmptyString else String c EmptyString
      | fraction => String c fraction
      end
  end.

(** Number::toString, steps 6 to 10, for an integer: its digits below
    10^21, and from there on the significant digits, a point after the first
    when there are several, and the exponent. *)
Definition render (v : N) : string :=
  if v <? 10 ^ 21 then decimal v
  else
    match decimal v with
    | String d rest =>
        String d (match trimZeros rest with
                  | EmptyString => EmptyString
                  | fraction => String "." fraction
                  end)
        +:+ "e+" +:+ decimal (N.of_nat (String.length rest))
    | EmptyString => EmptyString
    end.

(** [`${n}`] for a number that holds a non-negative integer
    (Number::toString of ECMAScript, radix 10): below 2^53 the digits of
    [n]; above, the shortest decimal that reads back as the same double,
    18446744073709552000 for 2^64 and 1e+21 for 10^21. *)
Definition Number_toString (n : N) : string :=
  if n <? 2 ^ 53 then decimal n
  else
    let x := toNumber n in
    if 2 ^ 1024 <=? x then "Infinity" else render (shortest_from 309 x).

Definition hexDigit (n : N) : ascii :=
  match n with
  | 0 => "0" | 1 => "1" | 2 => "2" | 3 => "3" | 4 => "4" | 5 => "5"
  | 6 => "6" | 7 => "7" | 8 => "8" | 9 => "9" | 10 => "a" | 11 => "b"
  | 12 => "c" | 13 => "d" | 14 => "e" | _ => "f"
  end%char.

Definition hexValue (c : ascii) : option N :=
  (if decide (c = "0") then Some 0 else if decide (c = "1") then Some 1
   else if decide (c = "2") then Some 2 else if decide (c = "3") then Some 3
   else if decide (c = "4") then Some 4 else if decide (c = "5") then Some 5
   else if decide (c = "6") then Some 6 else if decide (c = "7") then Some 7
   else if decide (c = "8") then Some 8 else if decide (c = "9") then Some 9
   else if decide (c = "a") then Some 10 else if decide (c = "b") then Some 11
   else if decide (c = "c") then Some 12 else if decide (c = "d") then Some 13
   else if decide (c = "e") then Some 14 else if decide (c = "f") then Some 15
   else None)%char.

Fixpoint hexBytes (bs : list Byte.byte) : string :=
  match bs with
  | [] => EmptyString
  | b :: rest =>
      let n := Byte.to_N b in
      String (hexDigit (n / 16)) (String (hexDigit (n mod 16)) (hexBytes rest))
  end.

(** [toHexString] of @chainsafe/ssz: "0x" followed by two lower-case hex
    digits per byte. *)
Definition toHexString (bs : list Byte.byte) : string := "0x" +:+ hexBytes bs.

Fixpoint unhexBytes (s : string) : option (list Byte.byte) :=
  match s with
  | EmptyString => Some []
  | String h (String l rest) =>
      match hexValue h, hexValue l, unhexBytes rest with
      | Some hv, Some lv, Some bs =>
          match Byte.of_N (16 * hv + lv) with
          | Some b => Some (b :: bs)
          | None => None
          end
      | _, _, _ => None
      end
  | String _ EmptyString => None
  end.

Abbreviation SyncChainId := string.

Definition getSyncChainId (syncType : RangeSyncType.t) (target : ChainTarget)
  : SyncChainId :=
  RangeSyncType.toString syncType +:+ "-" +:+ Number_toString (slot target)
    +:+ "-" +:+ toHexString (root target).

(** A string without the separator of chain ids. *)
Fixpoint dashFree (s : string) : Prop :=
  match s with
  | EmptyString => True
  | String c rest => c ≠ "-"%char ∧ dashFree rest
  end.

(** A string without a given character. *)
Fixpoint lacks (x : ascii) (s : string) : Prop :=
  match s with
  | EmptyString => True
  | String c rest => c ≠ x ∧ lacks x rest
  end.

Definition isDigit (c : ascii) : bool :=
  (48 <=? N_of_ascii c) && (N_of_ascii c <=? 57).

Fixpoint isDigits (s : string) : Prop :=
  match s with
  | EmptyString => True
  | String c rest => isDigit c = true ∧ isDigits rest
  end.

Fixpoint zeros (k : nat) : string :=
  match k with O => EmptyString | S k => String "0" (zeros k) end.

(** The fraction digits of the exponent form, with their point. *)
Definition fraction (rest : string) : string :=
  match trimZeros rest with
  | EmptyString => EmptyString
  | f => String "." f
  end.

(** ** SyncChain *)

Module SyncChain.
(** Modelled from the spec: class SyncChain of ./chain, whose source is
    outside this development.  Section 3 gives its fields; only those that
    range.ts reads or that the pool operations change are kept ([isSyncing]
    is the getter the orchestrator reads). *)
Record t := {
  startEpoch : Epoch;
  target : ChainTarget;
  syncType : RangeSyncType.t;
  peers : list PeerId;
  isSyncing : bool;
}.

(** Modelled from the spec: the constructor of SyncChain; a chain is
    created for a start height, a target and a sync type, with an empty
    pool, and is not syncing before [startSyncing]. *)
Definition new (startEpoch : Epoch) (target : ChainTarget)
    (syncType : RangeSyncType.t) : t :=
  {| startEpoch := startEpoch; target := target; syncType := syncType;
     peers := []; isSyncing := false |}.

(** Modelled from the spec: SyncChain.addPeer, "inserts peer into the
    pool" (the pool is a set of peer ids). *)
Definition addPeer (peerId : PeerId) (c : t) : t :=
  if decide (peerId ∈ peers c) then c
  else {| startEpoch := startEpoch c; target := target c;
          syncType := syncType c; peers := peers c ++ [peerId];
          isSyncing := isSyncing c |}.

(** Modelled from the spec: SyncChain.removePeer, "removes peer from
    pool". *)
Definition removePeer (peerId : PeerId) (c : t) : t :=
  {| startEpoch := startEpoch c; target := target c;
     syncType := syncType c; peers := filter (λ q, q ≠ peerId) (peers c);
     isSyncing := isSyncing c |}.

(** Modelled from the spec: the synchronous part of SyncChain.startSyncing,
    "begins/resumes the download-and-apply loop". *)
Definition startSyncing (c : t) : t :=
  {| startEpoch := startEpoch c; target := target c;
     syncType := syncType c; peers := peers c; isSyncing := true |}.

(** Modelled from the spec: SyncChain.stopSyncing, "pauses issuing new
    downloads". *)
Definition stopSyncing (c : t) : t :=
  {| startEpoch := startEpoch c; target := target c;
     syncType := syncType c; peers := peers c; isSyncing := false |}.

(** Modelled from the spec: SyncChain.remove, "tears down the chain
    unconditionally, releasing all peers and discarding pending
    batches". *)
Definition remove (c : t) : t :=
  {| startEpoch := startEpoch c; target := target c;
     syncType := syncType c; peers := []; isSyncing := false |}.

(** Modelled from the spec: SyncChain.getMetadata, a "read-only snapshot". *)
Definition getMetadata (c : t) : t := c.
End SyncChain.

(** ** Blocks, errors, trace *)

(** allForks.SignedBeaconBlock, restricted to [message.slot]. *)
Record SignedBeaconBlock := { message_slot : Slot; signature : list Byte.byte }.

(** phase0.BeaconBlocksByRangeRequest as the spec gives it,
    "{startHeight, count}". *)
Record BeaconBlocksByRangeRequest := { startSlot : Slot; count : N }.

Inductive Error :=
| ErrorAborted
| BlocksByRangeError
| OtherError (message : string).

Definition instanceof_ErrorAborted (e : Error) : bool :=
  match e with ErrorAborted => true | _ => false end.

(** A reference to a SyncChain object: its index in the object store. *)
Abbreviation Ref := nat.

Inductive LogLevel := Debug | Verbose | LogError.

(** Calls on collaborators, as they appear in range.ts.  Log payloads are
    left out. *)
Inductive Event :=
| Logger (level : LogLevel) (message : string)
| ChainAddPeer (r : Ref) (peerId : PeerId)
| ChainRemovePeer (r : Ref) (peerId : PeerId)
| ChainRemove (r : Ref)
| ChainStopSyncing (r : Ref)
| ChainGetMetadata (r : Ref)
| ChainStartSyncing (r : Ref) (localFinalizedEpoch : Epoch)
| BeaconGetStatus
| BeaconProcessChainSegment (blocks : list SignedBeaconBlock) (trusted : bool)
| ReqRespBeaconBlocksByRange (peerId : PeerId) (request : BeaconBlocksByRangeRequest).

(** ** State *)

(** [heap] is the store of SyncChain objects ever constructed; [chains] is
    [this.chains], a JavaScript Map: insertion-ordered, one entry per key. *)
Record State := {
  heap : list SyncChain.t;
  chains : list (SyncChainId * Ref);
  trace : list Event;
}.

Definition init : State := {| heap := []; chains := []; trace := [] |}.

Fixpoint Map_get {V} (id : SyncChainId) (m : list (SyncChainId * V)) : option V :=
  match m with
  | [] => None
  | (k, v) :: rest => if decide (k = id) then Some v else Map_get id rest
  end.

(** [Map.prototype.set]: an existing key keeps its position. *)
Fixpoint Map_set {V} (id : SyncChainId) (v : V) (m : list (SyncChainId * V))
  : list (SyncChainId * V) :=
  match m with
  | [] => [(id, v)]
  | (k, w) :: rest =>
      if decide (k = id) then (k, v) :: rest else (k, w) :: Map_set id v rest
  end.

Definition Map_delete {V} (id : SyncChainId) (m : list (SyncChainId * V))
  : list (SyncChainId * V) :=
  filter (λ e, e.1 ≠ id) m.

(** [Array.from(this.chains.values())]: the objects with their identity. *)
Definition values (st : State) : list (Ref * SyncChain.t) :=
  omap (λ e, (λ c, (e.2, c)) <$> heap st !! e.2) (chains st).

Definition logger (level : LogLevel) (message : string) (st : State) : State :=
  {| heap := heap st; chains := chains st;
     trace := trace st ++ [Logger level message] |}.

(** A method call on the object behind [r]: the call is traced and the
    object is updated in place, for every holder of the reference. *)
Definition call (ev : Event) (method : SyncChain.t → SyncChain.t) (r : Ref)
    (st : State) : State :=
  {| heap := alter method r (heap st); chains := chains st;
     trace := trace st ++ [ev] |}.

(** ** Completions: values and thrown errors *)

Inductive Completion (A : Type) :=
| Normal (a : A)
| Throw (e : Error).
Arguments Normal {A} a.
Arguments Throw {A} e.

Definition M (A : Type) : Type := State → Completion A * State.

Definition ret {A} (a : A) : M A := λ st, (Normal a, st).
Definition throw {A} (e : Error) : M A := λ st, (Throw e, st).
Definition bind {A B} (m : M A) (k : A → M B) : M B :=
  λ st, match m st with
        | (Normal a, st') => k a st'
        | (Throw e, st') => (Throw e, st')
        end.
(** [try { body } catch (e) { handler }] *)
Definition try_catch {A} (body : M A) (handler : Error → M A) : M A :=
  λ st, match body st with
        | (Normal a, st') => (Normal a, st')
        | (Throw e, st') => handler e st'
        end.
(** A statement that cannot throw. *)
Definition lift (f : State → State) : M unit := λ st, (Normal tt, f st).
(** [await p] for a promise that has settled with [c]. *)
Definition await {A} (c : Completion A) : M A := λ st, (c, st).
(** A call to a pure function that returns or throws. *)
Definition eval {A} (c : Completion A) : M A := λ st, (c, st).

Notation "'let!' x ':=' m 'in' k" := (bind m (λ x, k))
  (at level 10, x name, m at level 100, k at level 200).
Notation "'do!' m 'in' k" := (bind m (λ _, k))
  (at level 10, m at level 100, k at level 200).

(** ** Sequence check of downloaded blocks *)

Fixpoint sequentialFrom (expected : Slot) (blocks : list SignedBeaconBlock) : bool :=
  match blocks with
  | [] => true
  | b :: rest =>
      (message_slot b =? expected) && sequentialFrom (expected + 1) rest
  end.

(** Modelled from the spec: assertSequentialBlocksInRange of ../utils, whose
    source is outside this development.  Section 6: the blocks' "heights are a
    contiguous, strictly increasing match to the request"; section 8: a
    response one block short of the requested range is rejected. *)
Definition assertSequentialBlocksInRange (blocks : list SignedBeaconBlock)
    (request : BeaconBlocksByRangeRequest) : Completion unit :=
  if (N.of_nat (length blocks) =? count request)
     && sequentialFrom (startSlot request) blocks
  then Normal tt else Throw BlocksByRangeError.

(** The result of [updateChains]. *)
Record ChainsUpdate := { toStop : list Ref; toStart : list Ref }.

(** What [runChain] does after its try/catch statement. *)
Inductive Flow := Continue | Return.

(** ** RangeSync *)

(** The collaborators and helpers that range.ts imports from other files;
    the results below hold for every choice of them.  [IBeaconChain] is the
    observable state of [this.chain] at the time of a call, [config] is
    [this.config]. *)
Class Imports := {
  IBeaconChain : Type;
  IBeaconConfig : Type;
  config : IBeaconConfig;
  getRangeSyncType : IBeaconChain → Status → Status → RangeSyncType.t;
  computeStartSlotAtEpoch : IBeaconConfig → Epoch → Slot;
  computeEpochAtSlot : IBeaconConfig → Slot → Epoch;
  shouldRemoveChain : SyncChain.t → Slot → IBeaconChain → bool;
  updateChains : list (Ref * SyncChain.t) → ChainsUpdate;
  getStatus : IBeaconChain → Status;
}.

Section RangeSync.
Context `{Imports}.

(** The abort listener installed by the constructor. *)
Definition onAbort (st : State) : State :=
  foldl (λ st e, call (ChainRemove e.2) SyncChain.remove e.2 st) st (chains st).

Definition removePeer (peerId : PeerId) (st : State) : State :=
  foldl (λ st e, call (ChainRemovePeer e.2 peerId)
                      (SyncChain.removePeer peerId) e.2 st)
        st (chains st).

Fixpoint syncState_loop (cs : list SyncChain.t)
    (syncingHeadTargets : list ChainTarget) : RangeSyncState :=
  match cs with
  | [] =>
      if (0 <? length syncingHeadTargets)%nat
      then StatusHead syncingHeadTargets else StatusIdle
  | c :: rest =>
      if SyncChain.isSyncing c then
        match SyncChain.syncType c with
        | RangeSyncType.Finalized => StatusFinalized (SyncChain.target c)
        | RangeSyncType.Head =>
            syncState_loop rest (syncingHeadTargets ++ [SyncChain.target c])
        end
      else syncState_loop rest syncingHeadTargets
  end.

Definition syncState (st : State) : RangeSyncState :=
  syncState_loop (snd <$> values st) [].

(** The settled result of [this.chain.processChainSegment] is an input. *)
Definition chain_processChainSegment (settled : Completion unit)
    (blocks : list SignedBeaconBlock) (trusted : bool) : M unit :=
  λ st, (settled,
         {| heap := heap st; chains := chains st;
            trace := trace st ++ [BeaconProcessChainSegment blocks trusted] |}).

Definition processChainSegment (settled : Completion unit)
    (blocks : list SignedBeaconBlock) : M unit :=
  let trusted := true in
  chain_processChainSegment settled blocks trusted.

(** The settled result of [this.network.reqResp.beaconBlocksByRange] is an
    input. *)
Definition reqResp_beaconBlocksByRange
    (settled : Completion (list SignedBeaconBlock))
    (peerId : PeerId) (request : BeaconBlocksByRangeRequest)
  : M (list SignedBeaconBlock) :=
  λ st, (settled,
         {| heap := heap st; chains := chains st;
            trace := trace st ++ [ReqRespBeaconBlocksByRange peerId request] |}).

Definition downloadBeaconBlocksByRange
    (settled : Completion (list SignedBeaconBlock))
    (peerId : PeerId) (request : BeaconBlocksByRangeRequest)
  : M (list SignedBeaconBlock) :=
  let! blocks := reqResp_beaconBlocksByRange settled peerId request in
  do! eval (assertSequentialBlocksInRange blocks request) in
  ret blocks.

Definition addPeerOrCreateChain (startEpoch : Epoch) (target : ChainTarget)
    (peer : PeerId) (syncType : RangeSyncType.t) (st : State) : State :=
  let id := getSyncChainId syncType target in
  match Map_get id (chains st) with
  | Some syncingChain =>
      call (ChainAddPeer syncingChain peer) (SyncChain.addPeer peer)
           syncingChain st
  | None =>
      let st := logger Debug "New syncingChain" st in
      let syncingChain := length (heap st) in
      let st :=
        {| heap := heap st ++ [SyncChain.new startEpoch target syncType];
           chains := Map_set id syncingChain (chains st);
           trace := trace st |} in
      call (ChainAddPeer syncingChain peer) (SyncChain.addPeer peer)
           syncingChain st
  end.

(** [runChain] up to its first [await]: this part runs inside [update]. *)
Definition runChain_begin (localFinalizedEpoch : Epoch) (st : State)
    (syncChain : Ref) : State :=
  let st := call (ChainGetMetadata syncChain) SyncChain.getMetadata syncChain st in
  call (ChainStartSyncing syncChain localFinalizedEpoch)
       SyncChain.startSyncing syncChain st.

(** One iteration of the eviction loop.  Deleting the entry under the
    cursor does not disturb the iteration of a JavaScript Map. *)
Definition update_evict (bc : IBeaconChain) (localFinalizedSlot : Slot)
    (st : State) (e : SyncChainId * Ref) : State :=
  match heap st !! e.2 with
  | Some syncChain =>
      if shouldRemoveChain syncChain localFinalizedSlot bc then
        let st := call (ChainRemove e.2) SyncChain.remove e.2 st in
        let st := {| heap := heap st; chains := Map_delete e.1 (chains st);
                     trace := trace st |} in
        logger Debug "Removed chain" st
      else st
  | None => st
  end.

Definition update (bc : IBeaconChain) (localFinalizedEpoch : Epoch)
    (st : State) : State :=
  let localFinalizedSlot := computeStartSlotAtEpoch config localFinalizedEpoch in
  let st := foldl (update_evict bc localFinalizedSlot) st (chains st) in
  let u := updateChains (values st) in
  let st := foldl (λ st syncChain,
                     call (ChainStopSyncing syncChain) SyncChain.stopSyncing
                          syncChain st)
                  st (toStop u) in
  foldl (runChain_begin localFinalizedEpoch) st (toStart u).

Definition chain_getStatus (bc : IBeaconChain) : M Status :=
  λ st, (Normal (getStatus bc),
         {| heap := heap st; chains := chains st;
            trace := trace st ++ [BeaconGetStatus] |}).

(** [runChain] from the point where [syncChain.startSyncing] has settled
    with [settled]; [bc] is the beacon chain as the status poll finds it. *)
Definition runChain_settled (settled : Completion unit) (bc : IBeaconChain)
  : M unit :=
  let! flow :=
    try_catch
      (do! await settled in
       do! lift (logger Verbose "SyncChain reached target") in
       ret Continue)
      (λ e,
        if instanceof_ErrorAborted e then ret Return
        else do! lift (logger LogError "SyncChain error") in ret Continue) in
  match flow with
  | Return => ret tt
  | Continue =>
      let! localStatus := chain_getStatus bc in
      lift (update bc (finalizedEpoch localStatus))
  end.

Definition addPeer (bc : IBeaconChain) (peerId : PeerId)
    (localStatus peerStatus : Status) (st : State) : State :=
  let rangeSyncType := getRangeSyncType bc localStatus peerStatus in
  let st := logger Debug "Sync peer joined" st in
  let st := removePeer peerId st in
  let '(startEpoch, target) :=
    match rangeSyncType with
    | RangeSyncType.Finalized =>
        (finalizedEpoch localStatus,
         {| slot := computeStartSlotAtEpoch config (finalizedEpoch peerStatus);
            root := finalizedRoot peerStatus |})
    | RangeSyncType.Head =>
        (N.min (computeEpochAtSlot config (headSlot localStatus))
               (finalizedEpoch peerStatus),
         {| slot := headSlot peerStatus; root := headRoot peerStatus |})
    end in
  let st := addPeerOrCreateChain startEpoch target peerId
              RangeSyncType.Finalized st in
  update bc (finalizedEpoch localStatus) st.

(** The state inside [addPeer] when [addPeerOrCreateChain] has returned and
    [update] has not started yet. *)
Definition addPeer_attached (bc : IBeaconChain) (peerId : PeerId)
    (localStatus peerStatus : Status) (st : State) : State :=
  let rangeSyncType := getRangeSyncType bc localStatus peerStatus in
  let st := logger Debug "Sync peer joined" st in
  let st := removePeer peerId st in
  let '(startEpoch, target) :=
    match rangeSyncType with
    | RangeSyncType.Finalized =>
        (finalizedEpoch localStatus,
         {| slot := computeStartSlotAtEpoch config (finalizedEpoch peerStatus);
            root := finalizedRoot peerStatus |})
    | RangeSyncType.Head =>
        (N.min (computeEpochAtSlot config (headSlot localStatus))
               (finalizedEpoch peerStatus),
         {| slot := headSlot peerStatus; root := headRoot peerStatus |})
    end in
  addPeerOrCreateChain startEpoch target peerId RangeSyncType.Finalized st.

(** *** Runs of the orchestrator

    The entry points through which the rest of the client reaches a
    RangeSync: the two public methods, the abort event, the settlement of
    a [startSyncing] promise awaited by [runChain], and the two callbacks
    handed to every SyncChain. *)
Inductive Call :=
| CallAddPeer (bc : IBeaconChain) (peerId : PeerId)
    (localStatus peerStatus : Status)
| CallRemovePeer (peerId : PeerId)
| CallAbort
| CallRunChainSettled (settled : Completion unit) (bc : IBeaconChain)
| CallProcessChainSegment (settled : Completion unit)
    (blocks : list SignedBeaconBlock)
| CallDownloadBeaconBlocksByRange
    (settled : Completion (list SignedBeaconBlock)) (peerId : PeerId)
    (request : BeaconBlocksByRangeRequest).

Definition exec (st : State) (c : Call) : State :=
  match c with
  | CallAddPeer bc peerId localStatus peerStatus =>
      addPeer bc peerId localStatus peerStatus st
  | CallRemovePeer peerId => removePeer peerId st
  | CallAbort => onAbort st
  | CallRunChainSettled settled bc => (runChain_settled settled bc st).2
  | CallProcessChainSegment settled blocks =>
      (processChainSegment settled blocks st).2
  | CallDownloadBeaconBlocksByRange settled peerId request =>
      (downloadBeaconBlocksByRange settled peerId request st).2
  end.

Definition run (calls : list Call) : State := foldl exec init calls.

(** *** Notions used in the statements *)

(** The pool of the chain behind a reference. *)
Definition pool (h : list SyncChain.t) (r : Ref) : list PeerId :=
  default [] (SyncChain.peers <$> h !! r).

(** The entries of [this.chains] whose pool holds a peer. *)
Definition holders (peerId : PeerId) (st : State) : list (SyncChainId * Ref) :=
  filter (λ e, peerId ∈ pool (heap st) e.2) (chains st).

(** The map holds one entry per key, no object sits under two keys, and
    every reference points into the store. *)
Definition wf (st : State) : Prop :=
  NoDup (chains st).*1 ∧ NoDup (chains st).*2
  ∧ Forall (λ e, (e.2 < length (heap st))%nat) (chains st).

(** The removal predicate of [update] on an entry of the map. *)
Definition evictable (bc : IBeaconChain) (localFinalizedSlot : Slot)
    (h : list SyncChain.t) (e : SyncChainId * Ref) : bool :=
  match h !! e.2 with
  | Some syncChain => shouldRemoveChain syncChain localFinalizedSlot bc
  | None => false
  end.

(** The state of [update] when its eviction loop has finished. *)
Definition update_evicted (bc : IBeaconChain) (localFinalizedEpoch : Epoch)
    (st : State) : State :=
  foldl (update_evict bc (computeStartSlotAtEpoch config localFinalizedEpoch))
        st (chains st).

(** The start epoch and the target that the switch of [addPeer] yields. *)
Definition addPeer_start (bc : IBeaconChain) (localStatus peerStatus : Status)
  : Epoch * ChainTarget :=
  match getRangeSyncType bc localStatus peerStatus with
  | RangeSyncType.Finalized =>
      (finalizedEpoch localStatus,
       {| slot := computeStartSlotAtEpoch config (finalizedEpoch peerStatus);
          root := finalizedRoot peerStatus |})
  | RangeSyncType.Head =>
      (N.min (computeEpochAtSlot config (headSlot localStatus))
             (finalizedEpoch peerStatus),
       {| slot := headSlot peerStatus; root := headRoot peerStatus |})
  end.

(** The state inside [addPeer] when [this.removePeer] has returned. *)
Definition addPeer_removed (peerId : PeerId) (st : State) : State :=
  removePeer peerId (logger Debug "Sync peer joined" st).

(** A peer is in the pool of at most one chain of the map. *)
Definition inOnePool (peerId : PeerId) (st : State) : Prop :=
  ∀ id1 r1 id2 r2,
    (id1, r1) ∈ chains st → (id2, r2) ∈ chains st →
    peerId ∈ pool (heap st) r1 → peerId ∈ pool (heap st) r2 →
    id1 = id2 ∧ r1 = r2.

End RangeSync.

(** ** More notions used in the statements *)

(** The slots a request asks for, in order. *)
Definition requestedSlots (request : BeaconBlocksByRangeRequest) : list Slot :=
  (λ i, startSlot request + N.of_nat i) <$> seq 0 (N.to_nat (count request)).

(** A method applied to the objects behind a list of references. *)
Definition apply_all (method : SyncChain.t → SyncChain.t) (rs : list Ref)
    (h : list SyncChain.t) : list SyncChain.t :=
  foldl (λ h r, alter method r h) h rs.

(** What every method but [SyncChain.addPeer] preserves: the constructor
    arguments are kept and the pool does not grow. *)
Definition shrinks (c c' : SyncChain.t) : Prop :=
  SyncChain.startEpoch c' = SyncChain.startEpoch c
  ∧ SyncChain.target c' = SyncChain.target c
  ∧ SyncChain.syncType c' = SyncChain.syncType c
  ∧ SyncChain.peers c' ⊆ SyncChain.peers c.

(** A chain that [syncState] reports as Finalized. *)
Definition syncingFinalized (c : SyncChain.t) : Prop :=
  SyncChain.isSyncing c = true
  ∧ SyncChain.syncType c = RangeSyncType.Finalized.

(** Calls appended to the trace. *)
Definition traced (evs : list Event) (st : State) : State :=
  {| heap := heap st; chains := chains st; trace := trace st ++ evs |}.

(** [st'] comes from [st] by calls that create no chain and add no peer:
    same objects with pools that did not grow, and a map that lost
    entries at most. *)
Definition evolves (st st' : State) : Prop :=
  length (heap st') = length (heap st)
  ∧ (∀ r c', heap st' !! r = Some c' →
             ∃ c, heap st !! r = Some c ∧ shrinks c c')
  ∧ chains st' `sublist_of` chains st.

(** The calls made while evicting a list of entries. *)
Definition evictions (evicted : list (SyncChainId * Ref)) : list Event :=
  evicted ≫= λ e, [ChainRemove e.2; Logger Debug "Removed chain"].

(** The calls made while starting a list of chains. *)
Definition starts (localFinalizedEpoch : Epoch) (rs : list Ref) : list Event :=
  rs ≫= λ r, [ChainGetMetadata r; ChainStartSyncing r localFinalizedEpoch].

(** A trace entry other than a segment passed with [trusted = false]. *)
Definition trustedOnly (ev : Event) : Prop :=
  match ev with
  | BeaconProcessChainSegment _ trusted => trusted = true
  | _ => True
  end.

(** The calls of a run that are calls to [addPeer]. *)
Definition isAddPeer `{Imports} (c : Call) : bool :=
  match c with CallAddPeer _ _ _ _ => true | _ => false end.

(** Every entry of the map sits under the id of the chain it holds. *)
Definition keyed (st : State) : Prop :=
  ∀ id r, (id, r) ∈ chains st →
    ∃ c, heap st !! r = Some c
         ∧ id = getSyncChainId (SyncChain.syncType c) (SyncChain.target c).

(** ** An instance of the helpers

    The helpers that range.ts imports from other files are fixed here, so
    that the orchestrator can be run on concrete peers. *)

Module Instance.
(** SLOTS_PER_EPOCH of the minimal preset. *)
Definition SLOTS_PER_EPOCH : N := 8.

(** The beacon chain as the orchestrator observes it: its status. *)
Definition BeaconChain := Status.
Definition getStatus (bc : BeaconChain) : Status := bc.

(** Modelled from the spec: computeStartSlotAtEpoch of
    lodestar-beacon-state-transition, the first slot of an epoch. *)
Definition computeStartSlotAtEpoch (slotsPerEpoch : N) (epoch : Epoch) : Slot :=
  epoch * slotsPerEpoch.

(** Modelled from the spec: computeEpochAtSlot of
    lodestar-beacon-state-transition, the epoch a slot lies in. *)
Definition computeEpochAtSlot (slotsPerEpoch : N) (slot : Slot) : Epoch :=
  slot / slotsPerEpoch.

(** Modelled from the spec: getRangeSyncType of ../utils/remoteSyncType,
    section 4.1 classifyPeer: Finalized "if its claimed finalized height
    exceeds the local finalized height", Head otherwise (tolerance 0). *)
Definition getRangeSyncType (bc : BeaconChain) (local remote : Status)
  : RangeSyncType.t :=
  if finalizedEpoch local <? finalizedEpoch remote
  then RangeSyncType.Finalized else RangeSyncType.Head.

(** Modelled from the spec: shouldRemoveChain of ./utils/shouldRemoveChain,
    section 4.1: "true when the chain has zero peers, has reached/exceeded
    its target, or its unprocessed start height has fallen behind
    localFinalizedHeight". *)
Definition shouldRemoveChain (syncChain : SyncChain.t)
    (localFinalizedSlot : Slot) (bc : BeaconChain) : bool :=
  let start :=
    computeStartSlotAtEpoch SLOTS_PER_EPOCH (SyncChain.startEpoch syncChain) in
  (length (SyncChain.peers syncChain) =? 0)%nat
  || (slot (SyncChain.target syncChain) <=? start)
  || (start <? localFinalizedSlot).

Fixpoint largestPool (best : option (Ref * SyncChain.t))
    (cs : list (Ref * SyncChain.t)) : option (Ref * SyncChain.t) :=
  match cs with
  | [] => best
  | c :: rest =>
      match best with
      | Some b =>
          if (length (SyncChain.peers b.2) <? length (SyncChain.peers c.2))%nat
          then largestPool (Some c) rest else largestPool best rest
      | None => largestPool (Some c) rest
      end
  end.

(** Modelled from the spec: updateChains of ./utils/updateChains, section
    4.1 selectActiveChains: among Finalized chains "only the one with the
    largest peer pool may be actively downloading; all others are held
    paused"; among Head chains "all may run concurrently". *)
Definition updateChains (cs : list (Ref * SyncChain.t)) : ChainsUpdate :=
  let isFinalized (c : Ref * SyncChain.t) :=
    RangeSyncType.eqb (SyncChain.syncType c.2) RangeSyncType.Finalized in
  let finalized := filter (λ c, isFinalized c = true) cs in
  let heads := filter (λ c, isFinalized c = false) cs in
  let best := largestPool None finalized in
  let isBest (c : Ref * SyncChain.t) :=
    match best with Some b => (c.1 =? b.1)%nat | None => false end in
  {| toStop := fst <$> filter (λ c, SyncChain.isSyncing c.2 = true
                                     ∧ isBest c = false) finalized;
     toStart := ((fst <$> filter (λ c, SyncChain.isSyncing c.2 = false
                                        ∧ isBest c = true) finalized)
                 ++ (fst <$> filter (λ c, SyncChain.isSyncing c.2 = false)
                                    heads))%list |}.

Definition imports : Imports :=
  Build_Imports BeaconChain N SLOTS_PER_EPOCH getRangeSyncType
    computeStartSlotAtEpoch computeEpochAtSlot shouldRemoveChain
    updateChains getStatus.

Definition rootA : Root := [Byte.xaa; Byte.x01].
Definition rootB : Root := [Byte.xbb; Byte.x02].
Definition rootL : Root := [Byte.x11].

(** Local node: finalized epoch 10, head slot 85. *)
Definition local : Status :=
  {| finalizedRoot := rootL; finalizedEpoch := 10;
     headRoot := rootL; headSlot := 85 |}.
(** A peer ahead on finality: finalized epoch 100. *)
Definition peerFinalized : Status :=
  {| finalizedRoot := rootA; finalizedEpoch := 100;
     headRoot := rootB; headSlot := 820 |}.
(** A peer with our finality and a longer head. *)
Definition peerHead : Status :=
  {| finalizedRoot := rootL; finalizedEpoch := 10;
     headRoot := rootB; headSlot := 200 |}.

(** Peer A has joined: one chain towards its finalized checkpoint. *)
Definition joinedA : State :=
  @run imports [@CallAddPeer imports local "A" local peerFinalized].

(** Peers A and H have joined two chains, then A has left: the first chain
    has an empty pool and is still in the map. *)
Definition leftA : State :=
  @run imports [@CallAddPeer imports local "A" local peerFinalized;
                @CallAddPeer imports local "H" local peerHead;
                @CallRemovePeer imports "A"].

(** A store with a chain of each type, both syncing, the Head chain first. *)
Definition headTarget : ChainTarget := {| slot := 200; root := rootB |}.
Definition finalizedTarget : ChainTarget := {| slot := 800; root := rootA |}.
Definition bothSyncing : State :=
  {| heap := [ {| SyncChain.startEpoch := 10; SyncChain.target := headTarget;
                  SyncChain.syncType := RangeSyncType.Head;
                  SyncChain.peers := ["H"]; SyncChain.isSyncing := true |};
               {| SyncChain.startEpoch := 10; SyncChain.target := finalizedTarget;
                  SyncChain.syncType := RangeSyncType.Finalized;
                  SyncChain.peers := ["A"]; SyncChain.isSyncing := true |} ];
     chains := [("Head-200-0xbb02", 0%nat); ("Finalized-800-0xaa01", 1%nat)];
     trace := [] |}.
End Instance.

(** * Validator keystore import (account validator import command)

    The handler of the [import] command and [getKeystorePassphrase].  The
    file system, the keystore library, the prompt and the helpers imported
    from other files are collaborators; every write, prompt and console
    message is appended to a trace, in program order. *)

Module ValidatorImport.

Inductive Err :=
| YargsError (message : string)
| JsError (message : string)
(** An error thrown by a collaborator. *)
| External (message : string).

Inductive Outcome (A : Type) :=
| Ok (a : A)
| Raise (e : Err).
Arguments Ok {A} a.
Arguments Raise {A} e.

(** Keystore of @chainsafe/bls-keystore, as far as the command uses it;
    [decrypt] fails on a wrong password.  An absent [pubkey] is the empty
    string: the command only tests it for truthiness. *)
Record Keystore := {
  pubkey : string;
  uuid : string;
  stringify : string;
  decrypt : string → Outcome unit;
}.

(** IValidatorImportArgs: three optional strings. *)
Record Args := {
  keystore : option string;
  directory : option string;
  passphraseFile : option string;
}.

(** What [console.log] prints, by message. *)
Inductive Message :=
| MsgFound (keystorePaths : list string) (directoryPath : option string)
    (keystoresDir : string)
| MsgSkipping (pubkey : string)
| MsgImporting (keystorePath pubkey uuid : string)
| MsgSuccess (pubkey : string)
| MsgAllImported
| MsgSummary (imported skipped : nat)
| MsgDoNotUse
| MsgImportedPassphrase (file : string)
| MsgInvalidPassphrase (file : string) (e : Err)
| MsgPlainTextWarning
| MsgPasswordCorrect.

Inductive Event :=
| ConsoleLog (m : Message)
| MkdirSync (path : string)
| WriteFileSync (path content : string)
| WriteValidatorPassphrase (secretsDir pubkey passphrase : string)
| Prompt (pubkey : string)
| Sleep (ms : N).

(** The collaborators of the command.  [promptPassword] is the answer with
    which [inquirer.prompt] resolves for a keystore. *)
Class Env := {
  FS : Type;
  readFileSync : FS → string → Outcome string;
  existsSync : FS → string → bool;
  mkdirSync : string → FS → Outcome FS;
  writeFileSync : string → string → FS → Outcome FS;
  path_join : string → string → string;
  Keystore_parse : string → Outcome Keystore;
  promptPassword : Keystore → Outcome string;
  recursivelyFind : FS → string → (string → bool) → Outcome (list string);
  isVotingKeystore : string → bool;
  isPassphraseFile : string → bool;
  getAccountPaths : Args → string * string;
  getValidatorDirPath : string → string → bool → string;
  VOTING_KEYSTORE_FILE : string;
  writeValidatorPassphrase : string → string → string → FS → Outcome FS;
  stripOffNewlines : string → string;
}.

(** The value of an optional string when it is truthy: neither undefined nor
    empty. *)
Definition truthy (o : option string) : option string :=
  match o with
  | Some s => if decide (s = "") then None else Some s
  | None => None
  end.

(** [String.prototype.endsWith] *)
Definition endsWith (s suffix : string) : bool :=
  let n := String.length s in
  let m := String.length suffix in
  if decide (m ≤ n)%nat
  then bool_decide (String.substring (n - m) m s = suffix)
  else false.

Section Command.
Context `{Env}.

Record World := { fs : FS; trace : list Event }.

Definition IO (A : Type) : Type := World → Outcome A * World.

Definition ret {A} (a : A) : IO A := λ w, (Ok a, w).
Definition raise {A} (e : Err) : IO A := λ w, (Raise e, w).
Definition bind {A B} (m : IO A) (k : A → IO B) : IO B :=
  λ w, match m w with
       | (Ok a, w') => k a w'
       | (Raise e, w') => (Raise e, w')
       end.
Definition try_catch {A} (body : IO A) (handler : Err → IO A) : IO A :=
  λ w, match body w with
       | (Ok a, w') => (Ok a, w')
       | (Raise e, w') => handler e w'
       end.
(** A call that returns or throws and leaves the world as it is. *)
Definition eval {A} (o : Outcome A) : IO A := λ w, (o, w).
(** A traced call that changes nothing else. *)
Definition emit (ev : Event) : IO unit :=
  λ w, (Ok tt, {| fs := fs w; trace := trace w ++ [ev] |}).
(** A traced call on the file system. *)
Definition mutate (ev : Event) (op : FS → Outcome FS) : IO unit :=
  λ w, match op (fs w) with
       | Ok fs' => (Ok tt, {| fs := fs'; trace := trace w ++ [ev] |})
       | Raise e => (Raise e, {| fs := fs w; trace := trace w ++ [ev] |})
       end.
(** A read of the file system. *)
Definition inspect {A} (read : FS → Outcome A) : IO A := λ w, (read (fs w), w).

Definition console_log (m : Message) : IO unit := emit (ConsoleLog m).

Notation "'let*' x ':=' m 'in' k" := (bind m (λ x, k))
  (at level 10, x name, m at level 100, k at level 200).
Notation "'do*' m 'in' k" := (bind m (λ _, k))
  (at level 10, m at level 100, k at level 200).

Definition getKeystorePassphrase (keystore : Keystore)
    (passphrasePaths : list string) (passphraseFile : option string)
  : IO string :=
  let passphraseFile :=
    match passphraseFile with
    | Some file => Some file
    | None =>
        List.find (λ filepath, endsWith filepath (pubkey keystore))
                  passphrasePaths
    end in
  let* found :=
    match truthy passphraseFile with
    | Some passphraseFile =>
        let* passphrase := inspect (λ fs, readFileSync fs passphraseFile) in
        try_catch
          (do* eval (decrypt keystore (stripOffNewlines passphrase)) in
           do* console_log (MsgImportedPassphrase passphraseFile) in
           ret (Some passphrase))
          (λ e,
            do* console_log (MsgInvalidPassphrase passphraseFile e) in
            ret None)
    | None => ret None
    end in
  match found with
  | Some passphrase => ret passphrase
  | None =>
      do* console_log MsgPlainTextWarning in
      do* emit (Prompt (pubkey keystore)) in
      let* password := eval (promptPassword keystore) in
      do* console_log MsgPasswordCorrect in
      do* emit (Sleep 1000) in
      ret password
  end.

(** The loop over the keystore paths, with the counter of imported
    validators. *)
Fixpoint importKeystores (keystoresDir secretsDir : string)
    (passphrasePaths : list string) (passphraseFile : option string)
    (keystorePaths : list string) (numOfImportedValidators : nat) : IO nat :=
  match keystorePaths with
  | [] => ret numOfImportedValidators
  | keystorePath :: rest =>
      let* content := inspect (λ fs, readFileSync fs keystorePath) in
      let* keystore := eval (Keystore_parse content) in
      let pubkey := pubkey keystore in
      let uuid := uuid keystore in
      if decide (pubkey = "") then
        raise (JsError "Invalid keystore, must contain .pubkey property")
      else
        let dir := getValidatorDirPath keystoresDir pubkey true in
        let* existing :=
          inspect (λ fs, Ok (existsSync fs dir
                             || existsSync fs (getValidatorDirPath keystoresDir
                                                 pubkey false))) in
        if existing : bool then
          do* console_log (MsgSkipping pubkey) in
          importKeystores keystoresDir secretsDir passphrasePaths
            passphraseFile rest numOfImportedValidators
        else
          do* console_log (MsgImporting keystorePath pubkey uuid) in
          let* passphrase :=
            getKeystorePassphrase keystore passphrasePaths passphraseFile in
          do* mutate (MkdirSync secretsDir) (mkdirSync secretsDir) in
          do* mutate (MkdirSync dir) (mkdirSync dir) in
          do* mutate (WriteFileSync (path_join dir VOTING_KEYSTORE_FILE)
                        (stringify keystore))
                     (writeFileSync (path_join dir VOTING_KEYSTORE_FILE)
                        (stringify keystore)) in
          do* mutate (WriteValidatorPassphrase secretsDir pubkey passphrase)
                     (writeValidatorPassphrase secretsDir pubkey passphrase) in
          do* console_log (MsgSuccess pubkey) in
          importKeystores keystoresDir secretsDir passphrasePaths
            passphraseFile rest (S numOfImportedValidators)
  end.

Definition handler (args : Args) : IO unit :=
  let singleKeystorePath := keystore args in
  let directoryPath := directory args in
  let passphraseFile := passphraseFile args in
  let '(keystoresDir, secretsDir) := getAccountPaths args in
  let* keystorePaths :=
    match truthy singleKeystorePath with
    | Some singleKeystorePath => ret (Some [singleKeystorePath])
    | None =>
        match truthy directoryPath with
        | Some directoryPath =>
            let* found :=
              inspect (λ fs, recursivelyFind fs directoryPath isVotingKeystore) in
            ret (Some found)
        | None => ret None
        end
    end in
  let* passphrasePaths :=
    match truthy directoryPath with
    | Some directoryPath =>
        inspect (λ fs, recursivelyFind fs directoryPath isPassphraseFile)
    | None => ret []
    end in
  match keystorePaths with
  | None => raise (YargsError "Must supply either keystore or directory")
  | Some keystorePaths =>
      if decide (length keystorePaths = 0%nat) then
        raise (YargsError "No keystores found")
      else
        do* (if decide (1 < length keystorePaths)%nat
             then console_log (MsgFound keystorePaths directoryPath keystoresDir)
             else ret tt) in
        let* numOfImportedValidators :=
          importKeystores keystoresDir secretsDir passphrasePaths
            passphraseFile keystorePaths 0 in
        do* (if decide (numOfImportedValidators = 0%nat) then
               console_log MsgAllImported
             else if decide (1 < length keystorePaths)%nat then
               let skippedCount :=
                 (length keystorePaths - numOfImportedValidators)%nat in
               console_log (MsgSummary numOfImportedValidators skippedCount)
             else ret tt) in
        console_log MsgDoNotUse
  end.

(** *** Notions used in the statements *)

(** The events that change the file system or ask the user. *)
Definition isEffect (ev : Event) : bool :=
  match ev with
  | ConsoleLog _ | Sleep _ => false
  | _ => true
  end.

(** The public keys for which a passphrase was written. *)
Definition imported (evs : list Event) : list string :=
  omap (λ ev, match ev with
              | WriteValidatorPassphrase _ pubkey _ => Some pubkey
              | _ => None
              end) evs.

(** The public keys reported as skipped. *)
Definition skipped (evs : list Event) : list string :=
  omap (λ ev, match ev with
              | ConsoleLog (MsgSkipping pubkey) => Some pubkey
              | _ => None
              end) evs.

(** The messages that [handler] prints outside the loop. *)
Definition isReport (ev : Event) : bool :=
  match ev with
  | ConsoleLog (MsgFound _ _ _) | ConsoleLog MsgAllImported
  | ConsoleLog (MsgSummary _ _) | ConsoleLog MsgDoNotUse => true
  | _ => false
  end.

(** A keystore path that the loop skips: it holds a keystore with a public
    key whose validator directory exists, with or without the prefix. *)
Definition alreadyImported (keystoresDir : string) (fs : FS) (keystorePath : string)
  : Prop :=
  ∃ content keystore,
    readFileSync fs keystorePath = Ok content
    ∧ Keystore_parse content = Ok keystore
    ∧ pubkey keystore ≠ ""
    ∧ (existsSync fs (getValidatorDirPath keystoresDir (pubkey keystore) true)
       || existsSync fs (getValidatorDirPath keystoresDir (pubkey keystore) false))
      = true.

(** What the loop relies on from the file system when it skips a validator
    it has imported before: a directory exists once [fs.mkdirSync] has made
    it, and no write of the command makes a path disappear. *)
Definition keepsPaths (op : FS → Outcome FS) : Prop :=
  ∀ path fs fs', op fs = Ok fs' →
    existsSync fs path = true → existsSync fs' path = true.

Definition fsLaws : Prop :=
  (∀ path fs fs', mkdirSync path fs = Ok fs' → existsSync fs' path = true)
  ∧ (∀ path, keepsPaths (mkdirSync path))
  ∧ (∀ path content, keepsPaths (writeFileSync path content))
  ∧ (∀ secretsDir pubkey passphrase,
       keepsPaths (writeValidatorPassphrase secretsDir pubkey passphrase)).

End Command.
End ValidatorImport.

(** ** An instance of the collaborators

    A file system that is a list of paths, and keystores that hold their
    public key, so that the command can be run on concrete files. *)

Module ImportInstance.
Import ValidatorImport.

(** The paths with their contents, the newest entry first; a directory has
    the empty content. *)
Definition Files : Type := list (string * string).

Definition readFile (files : Files) (path : string) : Outcome string :=
  match List.find (λ entry, String.eqb entry.1 path) files with
  | Some entry => Ok entry.2
  | None => Raise (External "ENOENT")
  end.

Definition pathExists (files : Files) (path : string) : bool :=
  existsb (λ entry, String.eqb entry.1 path) files.

(** A keystore file holds the public key; every keystore opens with the
    password "secret". *)
Definition parse (content : string) : Outcome Keystore :=
  Ok {| pubkey := content; uuid := "uuid-" +:+ content; stringify := content;
        decrypt := λ password,
          if String.eqb password "secret" then Ok tt
          else Raise (External "wrong password") |}.

Definition env : Env :=
  {| FS := Files;
     readFileSync := readFile;
     existsSync := pathExists;
     mkdirSync := λ path files, Ok ((path, "") :: files);
     writeFileSync := λ path content files, Ok ((path, content) :: files);
     path_join := λ a b, a +:+ "/" +:+ b;
     Keystore_parse := parse;
     promptPassword := λ _, Ok "secret";
     recursivelyFind := λ files dir test,
       Ok (List.filter (λ path, String.prefix dir path && test path) files.*1);
     isVotingKeystore := λ path, endsWith path ".json";
     isPassphraseFile := λ path, negb (endsWith path ".json");
     getAccountPaths := λ _, ("keystores", "secrets");
     getValidatorDirPath := λ keystoresDir pubkey prefixed,
       keystoresDir +:+ "/" +:+ (if prefixed : bool then "0x" else "") +:+ pubkey;
     VOTING_KEYSTORE_FILE := "voting-keystore.json";
     writeValidatorPassphrase := λ secretsDir pubkey passphrase files,
       Ok ((secretsDir +:+ "/" +:+ pubkey, passphrase) :: files);
     stripOffNewlines := λ s, s |}.

(** Validator aa has been imported before; the keystores of aa and bb and a
    passphrase file for aa lie in the directory [in]. *)
Definition disk : Files :=
  [("keystores/0xaa", ""); ("in/keystore-a.json", "aa");
   ("in/keystore-b.json", "bb"); ("in/aa", "secret")].

Definition start : @World env := @Build_World env disk [].

Definition keystoreA : Keystore :=
  {| pubkey := "aa"; uuid := "uuid-aa"; stringify := "aa";
     decrypt := λ password,
       if String.eqb password "secret" then Ok tt
       else Raise (External "wrong password") |}.
End ImportInstance.

(** * Properties *)

(** ** Chain ids *)

Lemma app_dash_inj (a a' b b' : string) :
  dashFree a → dashFree a' →
  a +:+ String "-" b = a' +:+ String "-" b' → a = a' ∧ b = b'.
Proof.
  revert a'. induction a as [|c a IH]; intros [|c' a'] Ha Ha' E; simpl in *.
  - by inversion E.
  - inversion E; subst. by destruct Ha' as [[] _].
  - inversion E; subst. by destruct Ha as [[] _].
  - inversion E; subst. destruct Ha as [_ Ha], Ha' as [_ Ha'].
    destruct (IH a' Ha Ha' H1) as [-> ->]. done.
Qed.

Lemma RangeSyncType_toString_dashFree ty : dashFree (RangeSyncType.toString ty).
Proof. destruct ty; simpl; repeat split; discriminate. Qed.

Lemma RangeSyncType_toString_inj a b :
  RangeSyncType.toString a = RangeSyncType.toString b → a = b.
Proof. by destruct a, b. Qed.

Lemma string_of_uint_dashFree d : dashFree (NilEmpty.string_of_uint d).
Proof. induction d; simpl; try done; split; try done; discriminate. Qed.

Lemma lacks_dashFree s : lacks "-" s ↔ dashFree s.
Proof. induction s as [|c s IH]; simpl; [done|]. by rewrite IH. Qed.

Lemma lacks_app x a b : lacks x a → lacks x b → lacks x (a +:+ b).
Proof. induction a as [|c a IH]; simpl; [done|]. intros [? ?] ?. auto. Qed.

Lemma app_sep_inj x (a a' b b' : string) :
  lacks x a → lacks x a' →
  a +:+ String x b = a' +:+ String x b' → a = a' ∧ b = b'.
Proof.
  revert a'. induction a as [|c a IH]; intros [|c' a'] Ha Ha' E; simpl in *.
  - by inversion E.
  - inversion E; subst. by destruct Ha' as [[] _].
  - inversion E; subst. by destruct Ha as [[] _].
  - inversion E; subst. destruct Ha as [_ Ha], Ha' as [_ Ha'].
    destruct (IH a' Ha Ha' H1) as [-> ->]. done.
Qed.

Lemma lacks_sep x a b : ¬ lacks x (a +:+ String x b).
Proof. induction a as [|c a IH]; simpl; [by intros [[] _]|]. by intros [_ ?]. Qed.

Lemma string_of_uint_isDigits d : isDigits (NilEmpty.string_of_uint d).
Proof. induction d; simpl; try done; by split. Qed.

Lemma isDigits_lacks x s : isDigit x = false → isDigits s → lacks x s.
Proof.
  intros Hx. induction s as [|c s IH]; simpl; [done|].
  intros [Hc Hs]. split; [congruence|auto].
Qed.

Lemma decimal_isDigits n : isDigits (decimal n).
Proof. apply string_of_uint_isDigits. Qed.

Lemma decimal_inj n m : decimal n = decimal m → n = m.
Proof.
  unfold decimal. intros E.
  assert (Some (N.to_uint n) = Some (N.to_uint m)) as [= E'].
  { rewrite <- !NilEmpty.usu. by rewrite E. }
  rewrite <- (DecimalN.Unsigned.of_to n), <- (DecimalN.Unsigned.of_to m).
  by rewrite E'.
Qed.

Lemma decimal_nonempty n : decimal n ≠ EmptyString.
Proof.
  unfold decimal. destruct n as [|p]; [done|]. simpl.
  pose proof (DecimalPos.Unsigned.to_uint_nonnil p) as Hp.
  destruct (Pos.to_uint p); done.
Qed.

Lemma trimZeros_isDigits s : isDigits s → isDigits (trimZeros s).
Proof.
  induction s as [|c s IH]; simpl; [done|]. intros [Hc Hs].
  destruct (trimZeros s) as [|a t]; [by destruct (Ascii.eqb c "0")|].
  split; [done|auto].
Qed.

Lemma trimZeros_zeros s :
  s = trimZeros s +:+ zeros (String.length s - String.length (trimZeros s)).
Proof.
  induction s as [|c s IH]; [done|]. cbn [trimZeros].
  destruct (trimZeros s) as [|a t] eqn:Et.
  - change (s = zeros (String.length s - 0)) in IH. rewrite Nat.sub_0_r in IH.
    destruct (Ascii.eqb_spec c "0") as [->|Hc].
    + change (String "0" s = String "0" (zeros (String.length s))).
      by rewrite <- IH.
    + change (String c s = String c (zeros (String.length s - 0))).
      by rewrite Nat.sub_0_r, <- IH.
  - change (String c s
            = String c (String a t
                        +:+ zeros (String.length s - String.length (String a t)))).
    by rewrite <- IH.
Qed.

Lemma trimZeros_inj s s' :
  trimZeros s = trimZeros s' → String.length s = String.length s' → s = s'.
Proof.
  intros Et El. rewrite (trimZeros_zeros s), (trimZeros_zeros s'), Et, El. done.
Qed.

(** The decimal chosen for a Number value reads back as that value. *)
Lemma candidate_sound x j v : candidate x j = Some v → toNumber v = x.
Proof.
  unfold candidate. cbv zeta.
  destruct (toNumber (x / 10 ^ N.of_nat j * 10 ^ N.of_nat j) =? x) eqn:El;
    destruct (toNumber (x / 10 ^ N.of_nat j * 10 ^ N.of_nat j + 10 ^ N.of_nat j)
              =? x) eqn:Eh;
    repeat case_match; intros [= <-]; by apply N.eqb_eq.
Qed.

Lemma shortest_from_sound j x :
  toNumber x = x → toNumber (shortest_from j x) = x.
Proof.
  intros Hx. induction j as [|j IH]; simpl;
    destruct (candidate x _) as [v|] eqn:Ec; eauto using candidate_sound.
Qed.

(** The rendering of the chosen decimal determines it. *)
Lemma render_inj v w : render v = render w → v = w.
Proof.
  assert (Hexp : ∀ d rest,
            isDigits (String d rest) →
            String d (match trimZeros rest with
                      | EmptyString => EmptyString
                      | f => String "." f
                      end)
            +:+ "e+" +:+ decimal (N.of_nat (String.length rest))
            = (String d (fraction rest))
              +:+ String "e" (String "+" (decimal (N.of_nat (String.length rest))))
            ∧ lacks "e" (String d (fraction rest))).
  { intros d rest [Hd Hrest]. split; [done|]. split; [by intros ->|].
    unfold fraction. pose proof (trimZeros_isDigits rest Hrest) as Ht.
    destruct (trimZeros rest) as [|a t]; [done|].
    split; [done|]. apply isDigits_lacks; [done|done]. }
  unfold render.
  destruct (v <? 10 ^ 21), (w <? 10 ^ 21).
  - apply decimal_inj.
  - pose proof (decimal_isDigits w) as Hw. pose proof (decimal_nonempty w).
    destruct (decimal w) as [|d rest]; [done|].
    destruct (Hexp d rest Hw) as [-> _]. intros E.
    destruct (lacks_sep "e" (String d (fraction rest))
                (String "+" (decimal (N.of_nat (String.length rest))))).
    rewrite <- E. apply isDigits_lacks; [done|apply decimal_isDigits].
  - pose proof (decimal_isDigits v) as Hv. pose proof (decimal_nonempty v).
    destruct (decimal v) as [|d rest]; [done|].
    destruct (Hexp d rest Hv) as [-> _]. intros E.
    destruct (lacks_sep "e" (String d (fraction rest))
                (String "+" (decimal (N.of_nat (String.length rest))))).
    rewrite E. apply isDigits_lacks; [done|apply decimal_isDigits].
  - pose proof (decimal_isDigits v) as Hv. pose proof (decimal_nonempty v).
    pose proof (decimal_isDigits w) as Hw. pose proof (decimal_nonempty w).
    destruct (decimal v) as [|d rest] eqn:Ev; [done|].
    destruct (decimal w) as [|d' rest'] eqn:Ew; [done|].
    destruct (Hexp d rest Hv) as [-> Lv]. destruct (Hexp d' rest' Hw) as [-> Lw].
    intros E. apply app_sep_inj in E as [E1 E2]; [|done..].
    injection E1 as -> Ef. injection E2 as El.
    apply decimal_inj, Nat2N.inj in El.
    assert (trimZeros rest = trimZeros rest') as Et.
    { unfold fraction in Ef.
      destruct (trimZeros rest), (trimZeros rest'); try done.
      by injection Ef as -> ->. }
    apply decimal_inj. rewrite Ev, Ew. f_equal. by apply trimZeros_inj.
Qed.

Lemma Number_toString_render n :
  isNumber n →
  Number_toString n = render (if n <? 2 ^ 53 then n else shortest_from 309 n).
Proof.
  intros [Hn Hfin]. unfold Number_toString.
  destruct (N.ltb_spec n (2 ^ 53)) as [Hs|Hs].
  - unfold render. destruct (N.ltb_spec n (10 ^ 21)) as [|Hb]; [done|].
    exfalso. apply (N.lt_irrefl n). eapply N.lt_le_trans; [exact Hs|].
    etrans; [|exact Hb]. apply N.leb_le. by vm_compute.
  - cbv zeta. rewrite Hn. by destruct (N.leb_spec (2 ^ 1024) n) as [?%N.le_ngt|].
Qed.

(** Distinct Number values render differently. *)
Lemma Number_toString_inj n m :
  isNumber n → isNumber m → Number_toString n = Number_toString m → n = m.
Proof.
  intros Hn Hm. rewrite !Number_toString_render by done.
  intros E%render_inj.
  destruct Hn as [Hn _], Hm as [Hm _].
  destruct (n <? 2 ^ 53) eqn:En, (m <? 2 ^ 53) eqn:Em.
  - done.
  - pose proof (shortest_from_sound 309 m Hm) as Hs. rewrite <- E in Hs.
    congruence.
  - pose proof (shortest_from_sound 309 n Hn) as Hs. rewrite E in Hs.
    congruence.
  - pose proof (shortest_from_sound 309 n Hn) as Hs.
    pose proof (shortest_from_sound 309 m Hm) as Hs'. rewrite E in Hs.
    congruence.
Qed.

Lemma render_dashFree v : dashFree (render v).
Proof.
  apply lacks_dashFree. unfold render.
  destruct (v <? 10 ^ 21); [apply isDigits_lacks; [done|apply decimal_isDigits]|].
  pose proof (decimal_isDigits v) as Hv.
  destruct (decimal v) as [|d rest]; [done|]. destruct Hv as [Hd Hrest].
  apply lacks_app; [|apply lacks_app].
  - split; [by intros ->|]. pose proof (trimZeros_isDigits rest Hrest) as Ht.
    destruct (trimZeros rest); [done|]. split; [done|].
    apply isDigits_lacks; [done|done].
  - by repeat split.
  - apply isDigits_lacks; [done|apply decimal_isDigits].
Qed.

Lemma Number_toString_dashFree n : dashFree (Number_toString n).
Proof.
  unfold Number_toString. destruct (n <? 2 ^ 53).
  - apply lacks_dashFree, isDigits_lacks; [auto|apply decimal_isDigits].
  - cbv zeta. destruct (2 ^ 1024 <=? toNumber n); [|apply render_dashFree].
    simpl. repeat split; discriminate.
Qed.

(** The safe integers are Number values. *)
Lemma isNumber_safe n : n < 2 ^ 53 → isNumber n.
Proof.
  intros Hn. split.
  - unfold toNumber. by destruct (N.ltb_spec n (2 ^ 53)) as [|?%N.le_ngt].
  - eapply N.lt_trans; [exact Hn|]. apply N.ltb_lt. by vm_compute.
Qed.

(** Slots below 2^53 print their digits; above, the digits of the nearest
    double are cut to the shortest that read back as it. *)
Example Number_toString_values :
  Number_toString 800 = "800"
  ∧ Number_toString (2 ^ 53 - 1) = "9007199254740991"
  ∧ Number_toString (2 ^ 53 + 1) = "9007199254740992"
  ∧ Number_toString (2 ^ 64) = "18446744073709552000"
  ∧ Number_toString (10 ^ 21) = "1e+21"
  ∧ Number_toString (2 ^ 70) = "1.1805916207174113e+21"
  ∧ Number_toString (2 ^ 1024) = "Infinity"
  ∧ isNumber (2 ^ 64) ∧ ¬ isNumber (2 ^ 53 + 1).
Proof.
  do 7 (split; [by vm_compute|]). split.
  - split; [by vm_compute|]. apply N.ltb_lt. by vm_compute.
  - intros [E _]. vm_compute in E. discriminate.
Qed.

Lemma unhex_hexByte (b : Byte.byte) :
  let n := Byte.to_N b in
  ∃ hv lv, hexValue (hexDigit (n / 16)) = Some hv
         ∧ hexValue (hexDigit (n mod 16)) = Some lv
         ∧ Byte.of_N (16 * hv + lv) = Some b.
Proof. destruct b; vm_compute; eauto. Qed.

Lemma unhexBytes_hexBytes bs : unhexBytes (hexBytes bs) = Some bs.
Proof.
  induction bs as [|b bs IH]; [done|].
  destruct (unhex_hexByte b) as (hv & lv & Hh & Hl & Hb).
  cbn [hexBytes unhexBytes]. cbv zeta. by rewrite Hh, Hl, IH, Hb.
Qed.

Lemma toHexString_inj a b : toHexString a = toHexString b → a = b.
Proof.
  unfold toHexString. cbn [String.app]. intros E.
  assert (hexBytes a = hexBytes b) as E' by (by injection E).
  assert (Some a = Some b) as [= ->]; [|done].
  by rewrite <- !unhexBytes_hexBytes, E'.
Qed.

Lemma getSyncChainId_inj ty1 t1 ty2 t2 :
  isNumber (slot t1) → isNumber (slot t2) →
  getSyncChainId ty1 t1 = getSyncChainId ty2 t2 → ty1 = ty2 ∧ t1 = t2.
Proof.
  unfold getSyncChainId. intros N1 N2 E.
  apply app_dash_inj in E as [E1 E];
    [|apply RangeSyncType_toString_dashFree..].
  apply app_dash_inj in E as [E2 E3]; [|apply Number_toString_dashFree..].
  apply RangeSyncType_toString_inj in E1.
  apply Number_toString_inj in E2; [|done..]. apply toHexString_inj in E3.
  destruct t1, t2; simpl in *; by subst.
Qed.


(** ** The derived sync state *)

Section SyncState.
Context `{Imports}.

Lemma syncState_loop_finalized cs acc :
  (∃ c, c ∈ cs ∧ syncingFinalized c) →
  ∃ pre c post,
    cs = pre ++ c :: post ∧ (∀ c', c' ∈ pre → ¬ syncingFinalized c')
    ∧ syncingFinalized c
    ∧ syncState_loop cs acc = StatusFinalized (SyncChain.target c).
Proof.
  revert acc. induction cs as [|c cs IH]; intros acc (c0 & Hin & Hc0).
  { by apply elem_of_nil in Hin. }
  destruct (decide (syncingFinalized c)) as [Hc|Hc].
  - exists [], c, cs. split_and!; [done| |done|].
    + intros c' Hc'. by apply elem_of_nil in Hc'.
    + destruct Hc as [Hs Ht]. simpl. by rewrite Hs, Ht.
  - apply elem_of_cons in Hin as [->|Hin]; [done|].
    assert (∀ acc', syncState_loop (c :: cs) acc
                    = syncState_loop cs acc'
                    → ∃ pre c1 post,
                        c :: cs = pre ++ c1 :: post
                        ∧ (∀ c', c' ∈ pre → ¬ syncingFinalized c')
                        ∧ syncingFinalized c1
                        ∧ syncState_loop (c :: cs) acc
                          = StatusFinalized (SyncChain.target c1)) as Hstep.
    { intros acc' E. destruct (IH acc') as (pre & c1 & post & -> & Hpre & Hc1 & R);
        [by eauto|].
      exists (c :: pre), c1, post. split_and!; [done| |done|by rewrite E].
      intros c' [->|?]%elem_of_cons; [done|by apply Hpre]. }
    simpl in *. destruct (SyncChain.isSyncing c) eqn:Hs; [|by eapply Hstep].
    destruct (SyncChain.syncType c) eqn:Ht; [|by eapply Hstep].
    by destruct Hc.
Qed.

Lemma syncState_loop_heads cs acc :
  (∀ c, c ∈ cs → ¬ syncingFinalized c) →
  syncState_loop cs acc =
    let targets :=
      acc ++ (SyncChain.target
                <$> filter (λ c, SyncChain.isSyncing c = true) cs) in
    if (0 <? length targets)%nat then StatusHead targets else StatusIdle.
Proof.
  revert acc. induction cs as [|c cs IH]; intros acc Hno.
  { simpl. by rewrite app_nil_r. }
  assert (∀ c', c' ∈ cs → ¬ syncingFinalized c') as Hno'.
  { intros c' ?. apply Hno. by right. }
  simpl. rewrite filter_cons. destruct (SyncChain.isSyncing c) eqn:Hs.
  - destruct (SyncChain.syncType c) eqn:Ht.
    + destruct (Hno c); [by left|done].
    + rewrite IH by done. rewrite decide_True by done. simpl.
      by rewrite <- app_assoc.
  - rewrite IH by done. by rewrite decide_False by done.
Qed.

(** C3. [syncState] reports Finalized with the target of a syncing
    Finalized chain as soon as one exists (the first in the order of the
    map, whatever Head chains are syncing); failing that, Head with the
    targets of all syncing chains when there is one; failing that, Idle.
    It is Idle exactly when no chain is syncing. *)
Theorem syncState_spec (st : State) :
  let cs := (values st).*2 in
  ((∃ c, c ∈ cs ∧ syncingFinalized c) →
     ∃ pre c post,
       cs = pre ++ c :: post ∧ (∀ c', c' ∈ pre → ¬ syncingFinalized c')
       ∧ syncingFinalized c
       ∧ syncState st = StatusFinalized (SyncChain.target c))
  ∧ ((∀ c, c ∈ cs → ¬ syncingFinalized c) →
     (∃ c, c ∈ cs ∧ SyncChain.isSyncing c = true) →
     syncState st
     = StatusHead (SyncChain.target
                     <$> filter (λ c, SyncChain.isSyncing c = true) cs)
     ∧ ∀ c, c ∈ filter (λ c, SyncChain.isSyncing c = true) cs →
            SyncChain.syncType c = RangeSyncType.Head)
  ∧ ((∀ c, c ∈ cs → SyncChain.isSyncing c = false) →
     syncState st = StatusIdle)
  ∧ (syncState st = StatusIdle ↔
     ∀ c, c ∈ cs → SyncChain.isSyncing c = false).
Proof.
  intros cs. unfold syncState. fold cs.
  assert (∀ l : list SyncChain.t,
            filter (λ c, SyncChain.isSyncing c = true) l = []
            ↔ ∀ c, c ∈ l → SyncChain.isSyncing c = false) as Hnil.
  { intros l. split.
    - intros Hl c Hc. destruct (SyncChain.isSyncing c) eqn:Hs; [|done].
      by destruct (filter_nil_not_elem_of _ l c Hl Hs).
    - intros Hl. induction l as [|c l IH]; [done|].
      rewrite filter_cons, decide_False.
      + apply IH. intros c' Hc'. apply Hl. by right.
      + rewrite (Hl c) by (by left). done. }
  assert ((∀ c, c ∈ cs → SyncChain.isSyncing c = false) →
          syncState_loop cs [] = StatusIdle) as Hidle.
  { intros Hall. rewrite syncState_loop_heads.
    - simpl. by rewrite (proj2 (Hnil cs) Hall).
    - intros c Hc [Hs _]. rewrite (Hall c Hc) in Hs. done. }
  split_and!.
  - apply syncState_loop_finalized.
  - intros Hno (c & Hc & Hs). split.
    + rewrite syncState_loop_heads by done. simpl.
      destruct (filter _ cs) eqn:Hf; [|done].
      rewrite (proj1 (Hnil cs) Hf c Hc) in Hs. done.
    + intros c' [Hs' Hc']%list_elem_of_filter.
      destruct (SyncChain.syncType c') eqn:Ht; [|done].
      by destruct (Hno c' Hc').
  - done.
  - split; [|done]. intros Hres.
    destruct (decide (Exists syncingFinalized cs)) as [Hex|Hex].
    + apply Exists_exists in Hex.
      destruct (syncState_loop_finalized cs [] Hex) as (?&?&?&?&?&?&R).
      congruence.
    + rewrite Exists_exists in Hex.
      rewrite syncState_loop_heads in Hres
        by (intros c Hc Hsf; apply Hex; eauto).
      simpl in Hres. apply (proj1 (Hnil cs)).
      by destruct (filter _ cs).
Qed.

End SyncState.

(** ** The callbacks handed to every SyncChain *)

Section Callbacks.
Context `{Imports}.

Lemma sequentialFrom_slots start blocks :
  sequentialFrom start blocks = true ↔
  message_slot <$> blocks
  = (λ i, start + N.of_nat i) <$> seq 0 (length blocks).
Proof.
  revert start. induction blocks as [|b blocks IH]; intros start; [done|].
  cbn [sequentialFrom length seq fmap list_fmap].
  rewrite andb_true_iff, IH, N.eqb_eq, <- fmap_S_seq, <- list_fmap_compose.
  assert ((λ i, start + 1 + N.of_nat i) <$> seq 0 (length blocks)
          = ((λ i, start + N.of_nat i) ∘ S) <$> seq 0 (length blocks)) as ->.
  { apply list_fmap_ext. intros _ i _. simpl. lia. }
  replace (start + N.of_nat 0) with start by lia.
  split; [by intros [-> ->]|by intros [= -> ->]].
Qed.

Lemma assertSequentialBlocksInRange_slots blocks request :
  assertSequentialBlocksInRange blocks request = Normal tt ↔
  message_slot <$> blocks = requestedSlots request.
Proof.
  unfold assertSequentialBlocksInRange, requestedSlots.
  destruct (N.of_nat (length blocks) =? count request) eqn:Hlen; simpl.
  - apply N.eqb_eq in Hlen. rewrite <- Hlen, Nat2N.id.
    rewrite <- sequentialFrom_slots.
    by destruct (sequentialFrom _ _).
  - apply N.eqb_neq in Hlen. split; [done|]. intros E.
    apply (f_equal length) in E. rewrite !length_fmap, length_seq in E. lia.
Qed.

(** The requested slots are contiguous and strictly increasing from the
    start slot of the request. *)
Lemma requestedSlots_lookup request (i : nat) s :
  requestedSlots request !! i = Some s ↔
  (N.of_nat i < count request) ∧ s = startSlot request + N.of_nat i.
Proof.
  unfold requestedSlots. rewrite list_lookup_fmap, fmap_Some.
  split.
  - intros (j & [-> Hj]%lookup_seq & ->). split; [lia|done].
  - intros [Hi ->]. exists i. split; [|done]. apply lookup_seq. lia.
Qed.

(** C9. [downloadBeaconBlocksByRange] returns what the network returned
    only when the sequence check accepts it, that is, when the slots of the
    blocks are exactly the requested range in order; in every other case
    the call raises (the network's error or the check's) and returns no
    blocks. *)
Theorem downloadBeaconBlocksByRange_checked
    (settled : Completion (list SignedBeaconBlock)) (peerId : PeerId)
    (request : BeaconBlocksByRangeRequest) (st : State) :
  match (downloadBeaconBlocksByRange settled peerId request st).1 with
  | Normal blocks =>
      settled = Normal blocks
      ∧ assertSequentialBlocksInRange blocks request = Normal tt
      ∧ message_slot <$> blocks = requestedSlots request
  | Throw e =>
      settled = Throw e
      ∨ ∃ blocks, settled = Normal blocks ∧ e = BlocksByRangeError
                  ∧ message_slot <$> blocks ≠ requestedSlots request
  end.
Proof.
  unfold downloadBeaconBlocksByRange, reqResp_beaconBlocksByRange, bind,
    eval, ret.
  destruct settled as [blocks|e]; simpl; [|by left].
  destruct (assertSequentialBlocksInRange blocks request) as [[]|e] eqn:Ha.
  - split_and!; [done..|]. by apply assertSequentialBlocksInRange_slots.
  - right. exists blocks. split_and!; [done| |].
    + unfold assertSequentialBlocksInRange in Ha.
      destruct (_ && _); congruence.
    + intros Hs%assertSequentialBlocksInRange_slots. congruence.
Qed.

End Callbacks.

(** ** The continuation of runChain and the abort listener *)

Section RunChain.
Context `{Imports}.

(** The two ways [runChain] can end once [startSyncing] has settled: it
    returns at once, or it logs, polls the status and runs [update]. *)
Lemma runChain_settled_cases (settled : Completion unit) (bc : IBeaconChain)
    (st : State) :
  (runChain_settled settled bc st).2 = st
  ∨ ∃ level message,
      (runChain_settled settled bc st).2
      = update bc (finalizedEpoch (getStatus bc))
               (traced [Logger level message; BeaconGetStatus] st).
Proof.
  unfold runChain_settled, bind, try_catch, await, lift, ret, chain_getStatus,
    traced, logger.
  destruct settled as [[]|e]; simpl.
  - right. eexists _, _. by rewrite <- app_assoc.
  - destruct (instanceof_ErrorAborted e); simpl; [by left|].
    right. eexists _, _. by rewrite <- app_assoc.
Qed.

(** C7. When [startSyncing] settles, by success or by an error that is not
    ErrorAborted, [runChain] completes normally: it logs (verbose for
    success, error for the failure), polls [chain.getStatus] and runs
    [update] with the finalized epoch of the polled status. *)
Theorem runChain_settled_reevaluates (settled : Completion unit)
    (bc : IBeaconChain) (st : State) :
  (∀ e, settled = Throw e → instanceof_ErrorAborted e = false) →
  let logged :=
    match settled with
    | Normal _ => Logger Verbose "SyncChain reached target"
    | Throw _ => Logger LogError "SyncChain error"
    end in
  runChain_settled settled bc st
  = (Normal tt,
     update bc (finalizedEpoch (getStatus bc))
            (traced [logged; BeaconGetStatus] st)).
Proof.
  intros Hne. unfold runChain_settled, bind, try_catch, await, lift, ret,
    chain_getStatus, traced, logger.
  destruct settled as [[]|e]; simpl.
  - by rewrite <- app_assoc.
  - rewrite (Hne e eq_refl). simpl. by rewrite <- app_assoc.
Qed.

Lemma foldl_call_chains {X} (ev : X → Event) f (g : X → Ref) l st :
  chains (foldl (λ st x, call (ev x) f (g x) st) st l) = chains st.
Proof. revert st. induction l as [|x l IH]; intros st; [done|]. simpl. by rewrite IH. Qed.

Lemma foldl_call_trace {X} (ev : X → Event) f (g : X → Ref) l st :
  trace (foldl (λ st x, call (ev x) f (g x) st) st l)
  = trace st ++ (ev <$> l).
Proof.
  revert st. induction l as [|x l IH]; intros st; simpl.
  - by rewrite app_nil_r.
  - rewrite IH. simpl. by rewrite <- app_assoc.
Qed.

Lemma foldl_call_heap {X} (ev : X → Event) f (g : X → Ref) l st :
  heap (foldl (λ st x, call (ev x) f (g x) st) st l)
  = apply_all f (g <$> l) (heap st).
Proof.
  revert st. induction l as [|x l IH]; intros st; [done|]. simpl. by rewrite IH.
Qed.

Lemma apply_all_snoc f rs r h :
  apply_all f (rs ++ [r]) h = alter f r (apply_all f rs h).
Proof. unfold apply_all. by rewrite foldl_snoc. Qed.

(** After a method was called on every reference of a list, the objects
    behind them satisfy whatever the method establishes and keeps. *)
Lemma apply_all_post (P : SyncChain.t → Prop) f rs h r c :
  (∀ c, P (f c)) → r ∈ rs → apply_all f rs h !! r = Some c → P c.
Proof.
  intros Hf. induction rs as [|x rs IH] using rev_ind.
  { by intros ?%elem_of_nil. }
  rewrite apply_all_snoc. intros Hin Hl.
  destruct (decide (x = r)) as [->|Hne].
  - rewrite list_lookup_alter_eq in Hl.
    apply fmap_Some in Hl as (c0 & _ & ->). apply Hf.
  - rewrite list_lookup_alter_ne in Hl by done.
    apply elem_of_app in Hin as [Hin|Hin%list_elem_of_singleton]; [|done].
    by apply IH.
Qed.

Lemma apply_all_notin f rs h r :
  r ∉ rs → apply_all f rs h !! r = h !! r.
Proof.
  revert h. induction rs as [|x rs IH]; intros h Hr; [done|].
  apply not_elem_of_cons in Hr as [Hne Hr]. simpl.
  rewrite IH by done. by rewrite list_lookup_alter_ne.
Qed.

Lemma apply_all_idemp f rs h r :
  (∀ c, f (f c) = f c) → r ∈ rs →
  apply_all f rs h !! r = f <$> h !! r.
Proof.
  intros Hf. induction rs as [|x rs IH] using rev_ind.
  { by intros ?%elem_of_nil. }
  rewrite apply_all_snoc. intros Hin.
  destruct (decide (x = r)) as [->|Hne].
  - rewrite list_lookup_alter_eq.
    destruct (decide (r ∈ rs)) as [Hr|Hr].
    + rewrite IH by done. destruct (h !! r); simpl; by rewrite ?Hf.
    + by rewrite apply_all_notin.
  - rewrite list_lookup_alter_ne by done.
    apply elem_of_app in Hin as [Hin|Hin%list_elem_of_singleton]; [|done].
    by apply IH.
Qed.

(** C8. The abort listener calls [remove()] on every chain of the map, in
    the order of the map, and does nothing else; and when [startSyncing]
    settles with ErrorAborted, [runChain] returns at once: nothing is
    logged, the status is not polled and no [update] pass runs. *)
Theorem abort_tears_down (bc : IBeaconChain) (st : State) :
  (trace (onAbort st) = trace st ++ (ChainRemove <$> (chains st).*2)
   ∧ chains (onAbort st) = chains st
   ∧ ∀ id r, (id, r) ∈ chains st →
       heap (onAbort st) !! r = SyncChain.remove <$> heap st !! r)
  ∧ runChain_settled (Throw ErrorAborted) bc st = (Normal tt, st).
Proof.
  split; [|done]. unfold onAbort.
  rewrite (foldl_call_trace (λ e, ChainRemove e.2)), foldl_call_chains,
    (foldl_call_heap (λ e, ChainRemove e.2)).
  split_and!; [by rewrite <- list_fmap_compose|done|].
  intros id r Hin. apply apply_all_idemp; [done|].
  apply list_elem_of_fmap. by exists (id, r).
Qed.

End RunChain.

(** ** What the orchestrator keeps *)

Section Frame.
Context `{Imports}.

Lemma shrinks_refl c : shrinks c c.
Proof. by repeat split. Qed.

Lemma shrinks_trans c1 c2 c3 : shrinks c1 c2 → shrinks c2 c3 → shrinks c1 c3.
Proof.
  intros (?&?&?&?) (?&?&?&?). repeat split; try congruence. set_solver.
Qed.

Lemma shrinks_removePeer p c : shrinks c (SyncChain.removePeer p c).
Proof.
  repeat split; simpl. intros q [_ ?]%list_elem_of_filter. done.
Qed.

Lemma shrinks_remove c : shrinks c (SyncChain.remove c).
Proof. repeat split; simpl. set_solver. Qed.

Lemma shrinks_stopSyncing c : shrinks c (SyncChain.stopSyncing c).
Proof. by repeat split. Qed.

Lemma shrinks_startSyncing c : shrinks c (SyncChain.startSyncing c).
Proof. by repeat split. Qed.

Lemma evolves_refl st : evolves st st.
Proof. split_and!; [done| |done]. eauto using shrinks_refl. Qed.

Lemma evolves_trans st1 st2 st3 :
  evolves st1 st2 → evolves st2 st3 → evolves st1 st3.
Proof.
  intros (L1 & O1 & S1) (L2 & O2 & S2). split_and!.
  - congruence.
  - intros r c3 Hc3. destruct (O2 r c3 Hc3) as (c2 & Hc2 & ?).
    destruct (O1 r c2 Hc2) as (c1 & Hc1 & ?).
    eauto using shrinks_trans.
  - by etrans.
Qed.

Lemma evolves_traced evs st : evolves st (traced evs st).
Proof. exact (evolves_refl st). Qed.

Lemma evolves_logger level message st : evolves st (logger level message st).
Proof. exact (evolves_refl st). Qed.

Lemma evolves_call ev f r st :
  (∀ c, shrinks c (f c)) → evolves st (call ev f r st).
Proof.
  intros Hf. split_and!; simpl; [by rewrite length_alter| |done].
  intros r' c'. rewrite list_lookup_alter. case_decide as Hr.
  - subst. intros (c & Hc & ->)%fmap_Some. eauto.
  - eauto using shrinks_refl.
Qed.

Lemma evolves_foldl {X} (step : State → X → State) l st :
  (∀ st x, evolves st (step st x)) → evolves st (foldl step st l).
Proof.
  intros Hstep. revert st. induction l as [|x l IH]; intros st; simpl.
  - apply evolves_refl.
  - eapply evolves_trans; [apply Hstep|apply IH].
Qed.

Lemma evolves_removePeer p st : evolves st (removePeer p st).
Proof.
  apply evolves_foldl. intros. apply evolves_call, shrinks_removePeer.
Qed.

Lemma evolves_onAbort st : evolves st (onAbort st).
Proof.
  apply evolves_foldl. intros. apply evolves_call, shrinks_remove.
Qed.

Lemma evolves_update_evict bc s st e : evolves st (update_evict bc s st e).
Proof.
  unfold update_evict. destruct (heap st !! e.2); [|apply evolves_refl].
  destruct (shouldRemoveChain _ _ _); [|apply evolves_refl].
  destruct (evolves_call (ChainRemove e.2) SyncChain.remove e.2 st
              shrinks_remove) as (L & O & S).
  split_and!; [done..|]. simpl. apply sublist_filter.
Qed.

Lemma evolves_runChain_begin e st r : evolves st (runChain_begin e st r).
Proof.
  unfold runChain_begin.
  eapply evolves_trans; [|apply evolves_call, shrinks_startSyncing].
  apply evolves_call. intros. apply shrinks_refl.
Qed.

Lemma evolves_update bc e st : evolves st (update bc e st).
Proof.
  unfold update.
  set (st1 := foldl (update_evict bc _) st (chains st)).
  set (u := updateChains (values st1)).
  set (st2 := foldl _ st1 (toStop u)).
  apply (evolves_trans st st1); [apply evolves_foldl, evolves_update_evict|].
  apply (evolves_trans st1 st2); [|apply evolves_foldl, evolves_runChain_begin].
  apply evolves_foldl. intros. apply evolves_call, shrinks_stopSyncing.
Qed.

Lemma evolves_pool st st' r :
  evolves st st' → pool (heap st') r ⊆ pool (heap st) r.
Proof.
  intros (_ & O & _). unfold pool.
  destruct (heap st' !! r) as [c'|] eqn:Hc'; simpl; [|set_solver].
  destruct (O r c' Hc') as (c & -> & (_&_&_&?)). done.
Qed.

Lemma evolves_wf st st' : evolves st st' → wf st → wf st'.
Proof.
  intros (L & _ & S) (N1 & N2 & V). split_and!.
  - eapply sublist_NoDup; [done|]. by apply fmap_sublist.
  - eapply sublist_NoDup; [done|]. by apply fmap_sublist.
  - rewrite Forall_forall in *. intros e He. rewrite L.
    apply V. by eapply elem_of_sublist.
Qed.

Lemma filter_length_sublist {A} (P1 P2 : A → Prop)
    `{!∀ x, Decision (P1 x), !∀ x, Decision (P2 x)} l1 l2 :
  l1 `sublist_of` l2 → (∀ x, P1 x → P2 x) →
  (length (filter P1 l1) ≤ length (filter P2 l2))%nat.
Proof.
  intros Hs HP. induction Hs as [|x l1 l2 _ IH|x l1 l2 _ IH]; [done|..].
  - rewrite !filter_cons. destruct (decide (P1 x)) as [HP1|].
    + rewrite decide_True by auto. simpl. lia.
    + destruct (decide (P2 x)); simpl; lia.
  - rewrite filter_cons. destruct (decide (P2 x)); simpl; lia.
Qed.

Lemma evolves_holders p st st' :
  evolves st st' → (length (holders p st') ≤ length (holders p st))%nat.
Proof.
  intros Hev. unfold holders. apply filter_length_sublist.
  - apply Hev.
  - intros e. by apply evolves_pool.
Qed.

Lemma Map_get_Some_elem {V} id (v : V) m :
  Map_get id m = Some v → (id, v) ∈ m.
Proof.
  induction m as [|[k w] m IH]; [done|]. simpl. case_decide.
  - intros [= ->]. subst. by left.
  - intros ?. right. auto.
Qed.

Lemma Map_get_None {V} id (m : list (SyncChainId * V)) :
  Map_get id m = None ↔ id ∉ m.*1.
Proof.
  induction m as [|[k w] m IH]; simpl.
  - split; [|done]. intros _ ?%elem_of_nil. done.
  - rewrite not_elem_of_cons. case_decide as Hk.
    + split; [done|]. intros [? _]. congruence.
    + rewrite IH. split; [|by intros [_ ?]].
      intros ?. split; [congruence|done].
Qed.

Lemma Map_get_elem_Some {V} id (v : V) m :
  NoDup m.*1 → (id, v) ∈ m → Map_get id m = Some v.
Proof.
  induction m as [|[k w] m IH]; [by intros _ ?%elem_of_nil|].
  simpl. intros [Hk Hm]%NoDup_cons [[= -> ->]|Hin]%elem_of_cons.
  - by rewrite decide_True.
  - rewrite decide_False; [by apply IH|].
    intros ->. apply Hk. apply list_elem_of_fmap. by exists (id, v).
Qed.

Lemma Map_set_absent {V} id (v : V) m :
  Map_get id m = None → Map_set id v m = m ++ [(id, v)].
Proof.
  induction m as [|[k w] m IH]; [done|]. simpl. case_decide; [done|].
  intros ?. by rewrite IH.
Qed.


End Frame.

(** ** Attaching a peer *)

Section Attach.
Context `{Imports}.

Lemma addPeerOrCreateChain_existing e t p ty st r :
  Map_get (getSyncChainId ty t) (chains st) = Some r →
  addPeerOrCreateChain e t p ty st
  = call (ChainAddPeer r p) (SyncChain.addPeer p) r st.
Proof. intros Hg. unfold addPeerOrCreateChain. by rewrite Hg. Qed.

Lemma addPeerOrCreateChain_new e t p ty st :
  Map_get (getSyncChainId ty t) (chains st) = None →
  addPeerOrCreateChain e t p ty st
  = {| heap := heap st ++ [SyncChain.addPeer p (SyncChain.new e t ty)];
       chains := chains st ++ [(getSyncChainId ty t, length (heap st))];
       trace := trace st ++ [Logger Debug "New syncingChain";
                             ChainAddPeer (length (heap st)) p] |}.
Proof.
  intros Hg. unfold addPeerOrCreateChain. rewrite Hg. unfold call, logger.
  cbn [heap chains trace]. f_equal.
  - rewrite alter_app_r_alt by done. by rewrite Nat.sub_diag.
  - by apply Map_set_absent.
  - by rewrite <- app_assoc.
Qed.

Lemma addPeer_peers p c q :
  q ∈ SyncChain.peers (SyncChain.addPeer p c) ↔ q ∈ SyncChain.peers c ∨ q = p.
Proof.
  unfold SyncChain.addPeer. case_decide; simpl.
  - split; [by left|]. intros [?| ->]; done.
  - rewrite elem_of_app, list_elem_of_singleton. done.
Qed.

Lemma wf_ref_valid st id r :
  wf st → Map_get id (chains st) = Some r → (r < length (heap st))%nat.
Proof.
  intros (_ & _ & V) Hg%Map_get_Some_elem.
  rewrite Forall_forall in V. by apply (V (id, r)).
Qed.

Lemma wf_addPeerOrCreateChain e t p ty st :
  wf st → wf (addPeerOrCreateChain e t p ty st).
Proof.
  intros Hwf.
  destruct (Map_get (getSyncChainId ty t) (chains st)) as [r|] eqn:Hg.
  - rewrite (addPeerOrCreateChain_existing _ _ _ _ _ r) by done.
    destruct Hwf as (N1 & N2 & V). split_and!; simpl; [done..|].
    by rewrite length_alter.
  - rewrite addPeerOrCreateChain_new by done.
    destruct Hwf as (N1 & N2 & V). split_and!; simpl.
    + rewrite fmap_app. apply NoDup_app. split_and!; [done| |apply NoDup_singleton].
      intros k Hk ->%list_elem_of_singleton. by apply Map_get_None in Hg.
    + rewrite fmap_app. apply NoDup_app. split_and!; [done| |apply NoDup_singleton].
      intros r (e0 & -> & He0)%list_elem_of_fmap Hr%list_elem_of_singleton.
      rewrite Forall_forall in V. specialize (V e0 He0). simpl in *. lia.
    + rewrite Forall_app, Forall_singleton, length_app. simpl. split; [|lia].
      eapply Forall_impl; [done|]. simpl. intros. lia.
Qed.

(** After the attach step the map binds the chain id to an object whose
    pool holds the peer; that object was bound to the id before, or it is
    a new object built from the arguments. *)
Lemma addPeerOrCreateChain_attached e t p ty st :
  wf st →
  let st' := addPeerOrCreateChain e t p ty st in
  ∃ r c', Map_get (getSyncChainId ty t) (chains st') = Some r
          ∧ heap st' !! r = Some c' ∧ p ∈ SyncChain.peers c'
          ∧ match Map_get (getSyncChainId ty t) (chains st) with
            | Some r0 =>
                r = r0 ∧ chains st' = chains st
                ∧ length (heap st') = length (heap st)
            | None =>
                r = length (heap st)
                ∧ c' = SyncChain.addPeer p (SyncChain.new e t ty)
            end.
Proof.
  intros Hwf st'. subst st'.
  destruct (Map_get (getSyncChainId ty t) (chains st)) as [r|] eqn:Hg.
  - rewrite (addPeerOrCreateChain_existing _ _ _ _ _ r) by done. simpl.
    destruct (lookup_lt_is_Some_2 (heap st) r) as [c Hc];
      [by eapply wf_ref_valid|].
    exists r, (SyncChain.addPeer p c). rewrite list_lookup_alter_eq, Hc, length_alter.
    split_and!; try done. apply addPeer_peers. by right.
  - rewrite addPeerOrCreateChain_new by done. simpl.
    exists (length (heap st)), (SyncChain.addPeer p (SyncChain.new e t ty)).
    split_and!; try done.
    + apply Map_get_elem_Some.
      * destruct Hwf as (N1 & _). rewrite fmap_app. apply NoDup_app.
        split_and!; [done| |apply NoDup_singleton].
        intros k Hk ->%list_elem_of_singleton. by apply Map_get_None in Hg.
      * apply elem_of_app. right. by left.
    + by rewrite list_lookup_middle.
    + apply addPeer_peers. by right.
Qed.

Lemma filter_ext_elem {A} (P1 P2 : A → Prop)
    `{!∀ x, Decision (P1 x), !∀ x, Decision (P2 x)} (l : list A) :
  (∀ x, x ∈ l → P1 x ↔ P2 x) → filter P1 l = filter P2 l.
Proof.
  induction l as [|x l IH]; intros HP; [done|].
  rewrite !filter_cons.
  assert (P1 x ↔ P2 x) as Hx by (apply HP; by left).
  rewrite IH by (intros; apply HP; by right).
  destruct (decide (P1 x)), (decide (P2 x)); tauto.
Qed.

Lemma filter_snd_length {A} (l : list (A * nat)) r :
  NoDup l.*2 → (length (filter (λ e, e.2 = r) l) ≤ 1)%nat.
Proof.
  induction l as [|[a r'] l IH]; [simpl; lia|].
  rewrite fmap_cons, NoDup_cons, filter_cons. simpl. intros [Hn Hl].
  case_decide as Hr; [|by apply IH]. subst. simpl.
  rewrite (filter_ext_elem _ (λ _, False)).
  - clear. induction l; [simpl; lia|]. by rewrite filter_cons.
  - intros e He. split; [|done]. intros <-. apply Hn.
    apply list_elem_of_fmap. by exists e.
Qed.

(** Pools of the other peers are those before the attach step. *)
Lemma holders_attach_other e t p ty st q :
  wf st → q ≠ p →
  length (holders q (addPeerOrCreateChain e t p ty st)) = length (holders q st).
Proof.
  intros Hwf Hq. unfold holders.
  destruct (Map_get (getSyncChainId ty t) (chains st)) as [r|] eqn:Hg.
  - rewrite (addPeerOrCreateChain_existing _ _ _ _ _ r) by done. simpl.
    f_equal. apply filter_ext_elem. intros [id r'] _. unfold pool. simpl.
    rewrite list_lookup_alter. case_decide; [subst|done].
    destruct (heap st !! r') as [c|]; simpl; [|done].
    rewrite addPeer_peers. tauto.
  - rewrite addPeerOrCreateChain_new by done. simpl.
    rewrite filter_app, length_app.
    rewrite (filter_ext_elem _ (λ e, q ∈ pool (heap st) e.2) (chains st)).
    + rewrite filter_cons, decide_False; [simpl; lia|].
      unfold pool. simpl. rewrite list_lookup_middle by done. simpl.
      by intros ->%list_elem_of_singleton.
    + intros [id r'] He. unfold pool. simpl.
      destruct Hwf as (_ & _ & V). rewrite Forall_forall in V.
      specialize (V _ He). simpl in V. by rewrite lookup_app_l.
Qed.

(** A peer that no pool holds is held by one pool after it is attached. *)
Lemma holders_attach_self e t p ty st :
  wf st → holders p st = [] →
  (length (holders p (addPeerOrCreateChain e t p ty st)) ≤ 1)%nat.
Proof.
  intros Hwf Hnone. unfold holders in *.
  assert (∀ x, x ∈ chains st → p ∉ pool (heap st) x.2) as Hout.
  { intros x Hx Hp. exact (filter_nil_not_elem_of _ _ x Hnone Hp Hx). }
  destruct (Map_get (getSyncChainId ty t) (chains st)) as [r|] eqn:Hg.
  - rewrite (addPeerOrCreateChain_existing _ _ _ _ _ r) by done. simpl.
    rewrite (filter_ext_elem _ (λ e, e.2 = r) (chains st)).
    + apply filter_snd_length, Hwf.
    + intros [id r'] He. unfold pool. simpl.
      rewrite list_lookup_alter. case_decide as Hr.
      * subst. split; [done|]. intros _.
        destruct (lookup_lt_is_Some_2 (heap st) r') as [c ->];
          [by eapply wf_ref_valid|].
        simpl. apply addPeer_peers. by right.
      * split; [|congruence]. intros Hp. by destruct (Hout _ He).
  - rewrite addPeerOrCreateChain_new by done. simpl.
    rewrite filter_app, length_app.
    rewrite (filter_ext_elem _ (λ _, False) (chains st)).
    + assert (filter (λ _ : string * nat, False) (chains st) = []) as ->.
      { clear. induction (chains st); [done|]. by rewrite filter_cons. }
      simpl. apply length_filter.
    + intros [id r'] He. split; [|done]. intros Hp.
      apply (Hout _ He). unfold pool in *. simpl in *.
      destruct Hwf as (_ & _ & V). rewrite Forall_forall in V.
      specialize (V _ He). simpl in V. by rewrite lookup_app_l in Hp.
Qed.

(** After [removePeer], no pool of the map holds the peer. *)
Lemma holders_removePeer p st : holders p (removePeer p st) = [].
Proof.
  unfold holders, removePeer.
  rewrite (foldl_call_chains (λ e, ChainRemovePeer e.2 p)),
    (foldl_call_heap (λ e, ChainRemovePeer e.2 p)).
  rewrite (filter_ext_elem _ (λ _, False)).
  { induction (chains st); [done|]. by rewrite filter_cons. }
  intros e He. split; [|done]. unfold pool.
  destruct (apply_all _ _ _ !! e.2) as [c|] eqn:Hc; simpl;
    [|by intros ?%elem_of_nil].
  eapply (apply_all_post (λ c, p ∉ SyncChain.peers c)); [| |done].
  - intros c0. simpl. intros [? _]%list_elem_of_filter. done.
  - apply list_elem_of_fmap. by exists e.
Qed.

End Attach.

(** ** Runs of the orchestrator *)

Section Runs.
Context `{Imports}.

Lemma addPeer_unfold bc p l s st :
  addPeer bc p l s st
  = update bc (finalizedEpoch l) (addPeer_attached bc p l s st).
Proof.
  unfold addPeer, addPeer_attached. by destruct (getRangeSyncType bc l s).
Qed.

Lemma addPeer_attached_eq bc p l s st :
  addPeer_attached bc p l s st
  = addPeerOrCreateChain (addPeer_start bc l s).1 (addPeer_start bc l s).2 p
      RangeSyncType.Finalized (addPeer_removed p st).
Proof.
  unfold addPeer_attached, addPeer_start, addPeer_removed.
  by destruct (getRangeSyncType bc l s).
Qed.

Lemma evolves_addPeer_removed p st : evolves st (addPeer_removed p st).
Proof.
  eapply evolves_trans; [|apply evolves_removePeer]. apply evolves_logger.
Qed.

Lemma addPeer_removed_chains p st : chains (addPeer_removed p st) = chains st.
Proof.
  unfold addPeer_removed, removePeer.
  by rewrite (foldl_call_chains (λ e, ChainRemovePeer e.2 p)).
Qed.

Lemma wf_addPeer_attached bc p l s st :
  wf st → wf (addPeer_attached bc p l s st).
Proof.
  intros Hwf. rewrite addPeer_attached_eq.
  apply wf_addPeerOrCreateChain.
  eapply evolves_wf; [apply evolves_addPeer_removed|done].
Qed.

Lemma evolves_runChain_settled settled bc st :
  evolves st (runChain_settled settled bc st).2.
Proof.
  destruct (runChain_settled_cases settled bc st) as [->|(lv & msg & ->)].
  - apply evolves_refl.
  - eapply evolves_trans; [apply evolves_traced|apply evolves_update].
Qed.

Lemma evolves_downloadBeaconBlocksByRange settled p request st :
  evolves st (downloadBeaconBlocksByRange settled p request st).2.
Proof.
  unfold downloadBeaconBlocksByRange, reqResp_beaconBlocksByRange, bind,
    eval, ret.
  destruct settled as [blocks|e]; simpl; [|exact (evolves_refl st)].
  destruct (assertSequentialBlocksInRange blocks request);
    exact (evolves_refl st).
Qed.

(** Every call but [addPeer] creates no chain and adds no peer. *)
Lemma evolves_exec st c :
  (∀ bc p l s, c ≠ CallAddPeer bc p l s) → evolves st (exec st c).
Proof.
  intros Hc. destruct c; simpl.
  - by destruct (Hc bc peerId localStatus peerStatus).
  - apply evolves_removePeer.
  - apply evolves_onAbort.
  - apply evolves_runChain_settled.
  - exact (evolves_refl st).
  - apply evolves_downloadBeaconBlocksByRange.
Qed.

Lemma wf_exec st c : wf st → wf (exec st c).
Proof.
  intros Hwf.
  destruct c as [bc p l s| | | | |];
    try (eapply evolves_wf; [apply evolves_exec|done]; done).
  simpl. rewrite addPeer_unfold.
  eapply evolves_wf; [apply evolves_update|]. by apply wf_addPeer_attached.
Qed.

Lemma wf_run calls : wf (run calls).
Proof.
  unfold run. induction calls as [|c calls IH] using rev_ind.
  - repeat split; simpl; constructor.
  - rewrite foldl_snoc. by apply wf_exec.
Qed.

(** *** Peer uniqueness *)

Lemma unique_addPeer_attached bc p l s st :
  wf st → (∀ q, (length (holders q st) ≤ 1)%nat) →
  ∀ q, (length (holders q (addPeer_attached bc p l s st)) ≤ 1)%nat.
Proof.
  intros Hwf Hu q. rewrite addPeer_attached_eq.
  assert (wf (addPeer_removed p st)) as Hwf'.
  { eapply evolves_wf; [apply evolves_addPeer_removed|done]. }
  destruct (decide (q = p)) as [->|Hq].
  - apply holders_attach_self; [done|]. apply holders_removePeer.
  - rewrite holders_attach_other by done.
    etrans; [apply evolves_holders, evolves_addPeer_removed|apply Hu].
Qed.

Lemma unique_run calls q : (length (holders q (run calls)) ≤ 1)%nat.
Proof.
  revert q. unfold run. induction calls as [|c calls IH] using rev_ind.
  { intros q. simpl. lia. }
  intros q. rewrite foldl_snoc. fold (run calls) in *.
  destruct c as [bc p l s| | | | |];
    try (etrans; [apply evolves_holders, evolves_exec; done|apply IH]).
  simpl. rewrite addPeer_unfold.
  etrans; [apply evolves_holders, evolves_update|].
  apply unique_addPeer_attached; [apply wf_run|done].
Qed.

Lemma holders_inOnePool p st :
  (length (holders p st) ≤ 1)%nat → inOnePool p st.
Proof.
  intros Hlen id1 r1 id2 r2 H1 H2 Hp1 Hp2.
  assert ((id1, r1) ∈ holders p st) as Hh1 by (by apply list_elem_of_filter).
  assert ((id2, r2) ∈ holders p st) as Hh2 by (by apply list_elem_of_filter).
  destruct (holders p st) as [|a [|b l]]; simpl in *; [| |lia].
  - by apply elem_of_nil in Hh1.
  - apply list_elem_of_singleton in Hh1, Hh2. split; congruence.
Qed.

(** C2. After any sequence of calls, every peer is in the pool of at most
    one chain of the map (and the map has one entry per chain id).  Inside
    a further [addPeer] the same holds at each step: once [removePeer] has
    run, no pool holds the new peer, and once the peer is attached, it is
    in one pool. *)
Theorem peer_in_at_most_one_pool (calls : list Call) (peerId : PeerId) :
  let st := run calls in
  inOnePool peerId st ∧ NoDup (chains st).*1
  ∧ ∀ bc joining localStatus peerStatus,
      holders joining (addPeer_removed joining st) = []
      ∧ inOnePool peerId (addPeer_removed joining st)
      ∧ inOnePool peerId (addPeer_attached bc joining localStatus peerStatus st)
      ∧ inOnePool peerId (addPeer bc joining localStatus peerStatus st).
Proof.
  intros st. split_and!.
  - apply holders_inOnePool, unique_run.
  - apply wf_run.
  - intros bc q l s. split_and!.
    + apply holders_removePeer.
    + apply holders_inOnePool.
      etrans; [apply evolves_holders, evolves_addPeer_removed|apply unique_run].
    + apply holders_inOnePool, unique_addPeer_attached;
        [apply wf_run|apply unique_run].
    + apply holders_inOnePool.
      pose proof (unique_run (calls ++ [CallAddPeer bc q l s]) peerId) as Hu.
      unfold run in Hu. by rewrite foldl_snoc in Hu.
Qed.

End Runs.

(** ** Chains created and joined by addPeer *)

Section AddPeer.
Context `{Imports}.

(** What [update] leaves of an object: its constructor arguments. *)
Lemma evolves_lookup st st' r c :
  evolves st st' → heap st !! r = Some c →
  ∃ c', heap st' !! r = Some c' ∧ shrinks c c'.
Proof.
  intros (L & O & _) Hc.
  destruct (lookup_lt_is_Some_2 (heap st') r) as [c' Hc'].
  { rewrite L. by eapply lookup_lt_Some. }
  destruct (O r c' Hc') as (c0 & Hc0 & ?). exists c'. split; [done|].
  congruence.
Qed.

(** When no chain has the id of the target, [addPeer] constructs one from
    the start epoch, target and type handed to [addPeerOrCreateChain]. *)
Lemma addPeer_created bc fe e t p ty st :
  Map_get (getSyncChainId ty t) (chains st) = None →
  ∃ c, heap (update bc fe (addPeerOrCreateChain e t p ty (addPeer_removed p st)))
         !! length (heap st) = Some c
       ∧ SyncChain.startEpoch c = e ∧ SyncChain.target c = t
       ∧ SyncChain.syncType c = ty.
Proof.
  intros Hg.
  pose proof (evolves_addPeer_removed p st) as (L & _ & _).
  rewrite <- addPeer_removed_chains with (p := p) in Hg.
  destruct (evolves_lookup _ _ (length (heap st))
              (SyncChain.addPeer p (SyncChain.new e t ty))
              (evolves_update bc fe
                 (addPeerOrCreateChain e t p ty (addPeer_removed p st))))
    as (c & Hc & He & Ht & Hty & _).
  { rewrite addPeerOrCreateChain_new by done. simpl.
    rewrite <- L. by rewrite list_lookup_middle. }
  exists c. split; [done|].
  rewrite He, Ht, Hty. unfold SyncChain.addPeer. by case_decide.
Qed.


(** *** The sync type of the chains *)

Lemma addPeerOrCreateChain_syncType e t p ty st :
  Forall (λ c, SyncChain.syncType c = ty) (heap st) →
  Forall (λ c, SyncChain.syncType c = ty)
         (heap (addPeerOrCreateChain e t p ty st)).
Proof.
  intros Hall.
  destruct (Map_get (getSyncChainId ty t) (chains st)) as [r|] eqn:Hg.
  - rewrite (addPeerOrCreateChain_existing _ _ _ _ _ r) by done. simpl.
    apply Forall_alter; [done|]. intros c _ <-.
    unfold SyncChain.addPeer. by case_decide.
  - rewrite addPeerOrCreateChain_new by done. simpl.
    apply Forall_app. split; [done|]. apply Forall_singleton.
    unfold SyncChain.addPeer. by case_decide.
Qed.

Lemma evolves_syncType ty st st' :
  evolves st st' →
  Forall (λ c, SyncChain.syncType c = ty) (heap st) →
  Forall (λ c, SyncChain.syncType c = ty) (heap st').
Proof.
  intros (_ & O & _). rewrite !Forall_lookup. intros Hall r c' Hc'.
  destruct (O r c' Hc') as (c & Hc & (_ & _ & -> & _)). by eapply Hall.
Qed.

(** Every chain that a run constructs has sync type Finalized. *)
Lemma run_syncType calls :
  Forall (λ c, SyncChain.syncType c = RangeSyncType.Finalized)
         (heap (run calls)).
Proof.
  unfold run. induction calls as [|c calls IH] using rev_ind; [constructor|].
  rewrite foldl_snoc. fold (run calls) in *.
  destruct c as [bc p l s| | | | |];
    try (eapply evolves_syncType; [apply evolves_exec|done]; done).
  simpl. rewrite addPeer_unfold.
  eapply evolves_syncType; [apply evolves_update|].
  rewrite addPeer_attached_eq. apply addPeerOrCreateChain_syncType.
  eapply evolves_syncType; [apply evolves_addPeer_removed|done].
Qed.

(** C1 (as the code behaves). A peer classified Head is attached under the
    id of a Finalized chain to its head target, and the chain it is
    attached to has sync type Finalized: [addPeer] passes the constant
    [RangeSyncType.Finalized] to [addPeerOrCreateChain], not the
    classification. *)
Theorem head_peer_attached_to_finalized_chain (calls : list Call)
    (bc : IBeaconChain) (peerId : PeerId) (localStatus peerStatus : Status) :
  getRangeSyncType bc localStatus peerStatus = RangeSyncType.Head →
  let st := addPeer_attached bc peerId localStatus peerStatus (run calls) in
  ∃ r c,
    Map_get (getSyncChainId RangeSyncType.Finalized
               {| slot := headSlot peerStatus; root := headRoot peerStatus |})
            (chains st) = Some r
    ∧ heap st !! r = Some c
    ∧ peerId ∈ SyncChain.peers c
    ∧ SyncChain.syncType c = RangeSyncType.Finalized
    ∧ SyncChain.syncType c ≠ getRangeSyncType bc localStatus peerStatus.
Proof.
  intros Hty st. subst st.
  assert (Forall (λ c, SyncChain.syncType c = RangeSyncType.Finalized)
            (heap (addPeer_attached bc peerId localStatus peerStatus
                     (run calls)))) as Hall.
  { rewrite addPeer_attached_eq. apply addPeerOrCreateChain_syncType.
    eapply evolves_syncType; [apply evolves_addPeer_removed|].
    apply run_syncType. }
  rewrite addPeer_attached_eq in Hall |- *.
  destruct (addPeerOrCreateChain_attached (addPeer_start bc localStatus peerStatus).1
              (addPeer_start bc localStatus peerStatus).2 peerId
              RangeSyncType.Finalized (addPeer_removed peerId (run calls)))
    as (r & c & Hr & Hc & Hin & _).
  { eapply evolves_wf; [apply evolves_addPeer_removed|apply wf_run]. }
  exists r, c. rewrite Forall_lookup in Hall. specialize (Hall r c Hc).
  unfold addPeer_start in Hr, Hc |- *. rewrite Hty in Hr, Hc |- *.
  split_and!; [done..|]. by rewrite Hall.
Qed.

End AddPeer.

(** ** The update pass *)

Section UpdatePass.
Context `{Imports}.

Lemma filter_all {A} (P : A → Prop) `{!∀ x, Decision (P x)} (l : list A) :
  (∀ x, x ∈ l → P x) → filter P l = l.
Proof.
  induction l as [|x l IH]; intros HP; [done|].
  rewrite filter_cons, decide_True by (apply HP; by left).
  f_equal. apply IH. intros. apply HP. by right.
Qed.

Lemma update_evict_true bc s st e :
  evictable bc s (heap st) e = true →
  heap (update_evict bc s st e) = alter SyncChain.remove e.2 (heap st)
  ∧ chains (update_evict bc s st e) = Map_delete e.1 (chains st)
  ∧ trace (update_evict bc s st e) = trace st ++ evictions [e].
Proof.
  unfold evictable, update_evict. destruct (heap st !! e.2); [|done].
  intros ->. simpl. by rewrite <- app_assoc.
Qed.

Lemma update_evict_false bc s st e :
  evictable bc s (heap st) e ≠ true → update_evict bc s st e = st.
Proof.
  unfold evictable, update_evict. destruct (heap st !! e.2); [|done].
  by destruct (shouldRemoveChain _ _ _).
Qed.

(** The eviction loop over entries that hold distinct objects: the entries
    evicted are those that satisfy the removal predicate when the loop
    starts. *)
Lemma update_evict_loop bc s entries st :
  NoDup entries.*2 →
  let evicted := filter (λ e, evictable bc s (heap st) e = true) entries in
  let st' := foldl (update_evict bc s) st entries in
  heap st' = apply_all SyncChain.remove evicted.*2 (heap st)
  ∧ chains st' = filter (λ e, e.1 ∉ evicted.*1) (chains st)
  ∧ trace st' = trace st ++ evictions evicted.
Proof.
  revert st. induction entries as [|e entries IH]; intros st Hnd.
  { simpl. split_and!; [done| |by rewrite app_nil_r].
    symmetry. apply filter_all. intros x _. by intros ?%elem_of_nil. }
  rewrite fmap_cons in Hnd. apply NoDup_cons in Hnd as [He Hnd].
  cbn zeta. cbn [foldl]. rewrite filter_cons.
  destruct (decide (evictable bc s (heap st) e = true)) as [Hev|Hev].
  - destruct (update_evict_true bc s st e Hev) as (Eh & Ec & Et).
    destruct (IH (update_evict bc s st e) Hnd) as (Ih & Ic & It).
    assert (filter (λ e0, evictable bc s (heap (update_evict bc s st e)) e0 = true)
                   entries
            = filter (λ e0, evictable bc s (heap st) e0 = true) entries) as Ef.
    { apply filter_ext_elem. intros e0 He0. unfold evictable.
      rewrite Eh, list_lookup_alter_ne; [done|].
      intros E. apply He. rewrite E. apply list_elem_of_fmap. by exists e0. }
    rewrite Ef in Ih, Ic, It. split_and!.
    + by rewrite Ih, Eh.
    + rewrite Ic, Ec. unfold Map_delete. rewrite list_filter_filter.
      apply filter_ext_elem. intros x _. rewrite fmap_cons, not_elem_of_cons.
      tauto.
    + rewrite It, Et. unfold evictions. simpl. by rewrite <- app_assoc.
  - rewrite (update_evict_false bc s st e Hev). by apply IH.
Qed.

Lemma NoDup_snd_elem {A} (l : list (A * nat)) a b r :
  NoDup l.*2 → (a, r) ∈ l → (b, r) ∈ l → a = b.
Proof.
  induction l as [|[a' r'] l IH]; [by intros _ ?%elem_of_nil|].
  rewrite fmap_cons, NoDup_cons. simpl. intros [Hr Hnd] Ha Hb.
  assert (∀ x, (x, r') ∈ l → False) as Hno.
  { intros x Hx. apply Hr. apply list_elem_of_fmap. by exists (x, r'). }
  apply elem_of_cons in Ha as [Ha|Ha];
    apply elem_of_cons in Hb as [Hb|Hb]; simplify_eq;
    first [done|by edestruct Hno|by apply IH].
Qed.

Lemma NoDup_fst_elem {A} (l : list (string * A)) k a b :
  NoDup l.*1 → (k, a) ∈ l → (k, b) ∈ l → a = b.
Proof.
  intros Hnd Ha Hb.
  apply (Map_get_elem_Some _ _ _ Hnd) in Ha, Hb. congruence.
Qed.

Lemma runChain_begin_loop e rs st :
  chains (foldl (runChain_begin e) st rs) = chains st
  ∧ trace (foldl (runChain_begin e) st rs) = trace st ++ starts e rs.
Proof.
  revert st. induction rs as [|r rs IH]; intros st; simpl.
  - by rewrite app_nil_r.
  - destruct (IH (runChain_begin e st r)) as [-> ->]. simpl.
    split; [done|]. unfold starts. simpl. by rewrite <- !app_assoc.
Qed.

Lemma values_refs st r : r ∈ (values st).*1 → r ∈ (chains st).*2.
Proof.
  unfold values. intros (x & -> & Hx)%list_elem_of_fmap.
  apply list_elem_of_omap in Hx as (e & He & Hx).
  apply fmap_Some in Hx as (c & _ & ->). simpl.
  apply list_elem_of_fmap. by exists e.
Qed.

(** C6. One pass of [update], in a state where the map holds distinct
    objects under distinct ids.  First the eviction loop: every chain that
    satisfies the removal predicate receives [remove()] and leaves the map,
    the others are untouched.  Then [updateChains] is applied to the
    surviving chains, [stopSyncing] is called on the chains to stop and
    [startSyncing] on the chains to start, in that order.  Provided
    [updateChains] selects among the chains it is given, no evicted chain is
    stopped or started. *)
Theorem update_pass_order (bc : IBeaconChain) (localFinalizedEpoch : Epoch)
    (st : State) :
  wf st →
  let localFinalizedSlot := computeStartSlotAtEpoch config localFinalizedEpoch in
  let evicted :=
    filter (λ e, evictable bc localFinalizedSlot (heap st) e = true) (chains st) in
  let survivors :=
    filter (λ e, evictable bc localFinalizedSlot (heap st) e ≠ true) (chains st) in
  let st1 := update_evicted bc localFinalizedEpoch st in
  let u := updateChains (values st1) in
  let st2 := update bc localFinalizedEpoch st in
  (chains st1 = survivors
   ∧ trace st1 = trace st ++ evictions evicted
   ∧ (∀ id r, (id, r) ∈ evicted →
        heap st1 !! r = SyncChain.remove <$> heap st !! r)
   ∧ (∀ id r, (id, r) ∈ survivors → heap st1 !! r = heap st !! r))
  ∧ (chains st2 = survivors
     ∧ trace st2 = trace st ++ evictions evicted
                   ++ (ChainStopSyncing <$> toStop u)
                   ++ starts localFinalizedEpoch (toStart u))
  ∧ ((∀ r, r ∈ (toStop u ++ toStart u) → r ∈ (values st1).*1) →
     ∀ id r, (id, r) ∈ evicted → (r ∉ toStop u) ∧ (r ∉ toStart u)).
Proof.
  intros (N1 & N2 & V) s evicted survivors st1 u st2.
  destruct (update_evict_loop bc s (chains st) st N2) as (Eh & Ec & Et).
  change (foldl (update_evict bc s) st (chains st)) with st1 in Eh, Ec, Et.
  change (filter (λ e, evictable bc s (heap st) e = true) (chains st))
    with evicted in Eh, Ec, Et.
  assert (st2 = foldl (runChain_begin localFinalizedEpoch)
                      (foldl (λ st r, call (ChainStopSyncing r)
                                           SyncChain.stopSyncing r st)
                             st1 (toStop u))
                      (toStart u)) as Est2 by done.
  assert (chains st1 = survivors) as Ec'.
  { rewrite Ec. apply filter_ext_elem. intros x Hx. split.
    - intros Hn Hev. apply Hn. apply list_elem_of_fmap. exists x.
      split; [done|]. by apply list_elem_of_filter.
    - intros Hn (y & Hy1 & [Hy Hyin]%list_elem_of_filter)%list_elem_of_fmap.
      destruct x as [k a], y as [k' b]. simpl in *. subst k'.
      rewrite (NoDup_fst_elem _ _ _ _ N1 Hx Hyin) in Hn. done. }
  assert (∀ id r, (id, r) ∈ evicted → ∀ id', (id', r) ∈ survivors → False)
    as Hdisj.
  { intros id r [Hev Hin]%list_elem_of_filter id' [Hs Hin']%list_elem_of_filter.
    rewrite (NoDup_snd_elem _ _ _ _ N2 Hin Hin') in Hev. done. }
  split_and!.
  - done.
  - done.
  - intros id r Hin. rewrite Eh. apply apply_all_idemp; [done|].
    apply list_elem_of_fmap. by exists (id, r).
  - intros id r Hin. rewrite Eh. apply apply_all_notin.
    intros ([id' r'] & -> & Hin')%list_elem_of_fmap. by eapply Hdisj.
  - rewrite Est2.
    destruct (runChain_begin_loop localFinalizedEpoch (toStart u)
                (foldl (λ st r, call (ChainStopSyncing r)
                                     SyncChain.stopSyncing r st)
                       st1 (toStop u))) as [-> _].
    by rewrite (foldl_call_chains ChainStopSyncing).
  - rewrite Est2.
    destruct (runChain_begin_loop localFinalizedEpoch (toStart u)
                (foldl (λ st r, call (ChainStopSyncing r)
                                     SyncChain.stopSyncing r st)
                       st1 (toStop u))) as [_ ->].
    rewrite (foldl_call_trace ChainStopSyncing), Et.
    by rewrite <- !app_assoc.
  - intros Hsel id r Hin.
    assert (r ∉ toStop u ++ toStart u) as Hr.
    { intros Hr%Hsel%values_refs. rewrite Ec' in Hr.
      apply list_elem_of_fmap in Hr as ([id' r'] & -> & Hin').
      by eapply Hdisj. }
    by apply not_elem_of_app in Hr.
Qed.

End UpdatePass.

(** ** Segments are applied as trusted *)

Section Trusted.
Context `{Imports}.

Lemma foldl_preserves {X} (Q : State → Prop) (step : State → X → State) l st :
  (∀ st x, Q st → Q (step st x)) → Q st → Q (foldl step st l).
Proof.
  intros Hstep. revert st. induction l as [|x l IH]; intros st; [done|].
  simpl. intros HQ. by apply IH, Hstep.
Qed.

Lemma trusted_traced evs st :
  Forall trustedOnly evs →
  Forall trustedOnly (trace st) → Forall trustedOnly (trace (traced evs st)).
Proof. intros. simpl. by apply Forall_app. Qed.

Lemma trusted_call ev f r st :
  trustedOnly ev →
  Forall trustedOnly (trace st) → Forall trustedOnly (trace (call ev f r st)).
Proof. intros. simpl. apply Forall_app. split; [done|]. by apply Forall_singleton. Qed.

Lemma trusted_update bc e st :
  Forall trustedOnly (trace st) → Forall trustedOnly (trace (update bc e st)).
Proof.
  intros Hst. unfold update.
  apply (foldl_preserves (λ st, Forall trustedOnly (trace st))).
  { intros st0 r Hst0. unfold runChain_begin. by repeat apply trusted_call. }
  apply (foldl_preserves (λ st, Forall trustedOnly (trace st))).
  { intros st0 r Hst0. by apply trusted_call. }
  apply (foldl_preserves (λ st, Forall trustedOnly (trace st))); [|done].
  intros st0 x Hst0. unfold update_evict.
  destruct (heap st0 !! x.2); [|done].
  destruct (shouldRemoveChain _ _ _); [|done].
  simpl. rewrite <- app_assoc. apply Forall_app. split; [done|].
  by repeat constructor.
Qed.

Lemma trusted_addPeer bc p l s st :
  Forall trustedOnly (trace st) → Forall trustedOnly (trace (addPeer bc p l s st)).
Proof.
  intros Hst. rewrite addPeer_unfold. apply trusted_update.
  rewrite addPeer_attached_eq.
  assert (Forall trustedOnly (trace (addPeer_removed p st))) as Hr.
  { unfold addPeer_removed, removePeer.
    apply (foldl_preserves (λ st, Forall trustedOnly (trace st))).
    - intros st0 x Hst0. by apply trusted_call.
    - simpl. apply Forall_app. split; [done|]. by repeat constructor. }
  destruct (Map_get (getSyncChainId RangeSyncType.Finalized
                       (addPeer_start bc l s).2)
                    (chains (addPeer_removed p st))) as [r|] eqn:Hg.
  - rewrite (addPeerOrCreateChain_existing _ _ _ _ _ r) by done.
    by apply trusted_call.
  - rewrite addPeerOrCreateChain_new by done. simpl.
    apply Forall_app. split; [done|]. by repeat constructor.
Qed.

Lemma trusted_exec st c :
  Forall trustedOnly (trace st) → Forall trustedOnly (trace (exec st c)).
Proof.
  intros Hst. destruct c as [bc p l s|p| |settled bc|settled blocks|settled p request];
    simpl.
  - by apply trusted_addPeer.
  - apply (foldl_preserves (λ st, Forall trustedOnly (trace st))); [|done].
    intros st0 x Hst0. by apply trusted_call.
  - apply (foldl_preserves (λ st, Forall trustedOnly (trace st))); [|done].
    intros st0 x Hst0. by apply trusted_call.
  - destruct (runChain_settled_cases settled bc st) as [->|(lv & msg & ->)];
      [done|].
    apply trusted_update, trusted_traced; [by repeat constructor|done].
  - apply Forall_app. split; [done|]. by repeat constructor.
  - unfold downloadBeaconBlocksByRange, reqResp_beaconBlocksByRange, bind,
      eval, ret.
    assert (Forall trustedOnly (trace st ++ [ReqRespBeaconBlocksByRange p request]))
      by (apply Forall_app; split; [done|by repeat constructor]).
    destruct settled as [blocks|e]; simpl; [|done].
    by destruct (assertSequentialBlocksInRange blocks request).
Qed.

(** C10. [processChainSegment] makes one call, [chain.processChainSegment]
    with [trusted = true], and returns its result; so in every run of the
    orchestrator, every segment handed to [chain.processChainSegment] is
    handed over as trusted, whatever the blocks and the state. *)
Theorem processChainSegment_trusted (settled : Completion unit)
    (blocks : list SignedBeaconBlock) (st : State) :
  (processChainSegment settled blocks st).1 = settled
  ∧ trace (processChainSegment settled blocks st).2
    = trace st ++ [BeaconProcessChainSegment blocks true]
  ∧ heap (processChainSegment settled blocks st).2 = heap st
  ∧ chains (processChainSegment settled blocks st).2 = chains st
  ∧ ∀ calls segment trusted,
      BeaconProcessChainSegment segment trusted ∈ trace (run calls) →
      trusted = true.
Proof.
  split_and!; [done..|]. intros calls segment trusted Hin.
  assert (Forall trustedOnly (trace (run calls))) as Hall.
  { unfold run. apply (foldl_preserves (λ st, Forall trustedOnly (trace st))).
    - intros. by apply trusted_exec.
    - constructor. }
  rewrite Forall_forall in Hall. exact (Hall _ Hin).
Qed.

End Trusted.

(** ** The theorems on concrete peers *)

Section Examples.
#[local] Existing Instance Instance.imports.

Local Abbreviation local := Instance.local.
Local Abbreviation peerFinalized := Instance.peerFinalized.
Local Abbreviation peerHead := Instance.peerHead.
Local Abbreviation finalizedTarget := Instance.finalizedTarget.

(** A Head chain and a Finalized chain are syncing, the Head chain first in
    the map: the Finalized target is reported. *)
Lemma syncState_spec_witness :
  (∃ c, c ∈ (values Instance.bothSyncing).*2 ∧ syncingFinalized c)
  ∧ ∃ pre c post,
      (values Instance.bothSyncing).*2 = pre ++ c :: post
      ∧ (∀ c', c' ∈ pre → ¬ syncingFinalized c')
      ∧ syncingFinalized c
      ∧ syncState Instance.bothSyncing = StatusFinalized (SyncChain.target c).
Proof.
  assert (∃ c, c ∈ (values Instance.bothSyncing).*2 ∧ syncingFinalized c)
    as Hex.
  { exists {| SyncChain.startEpoch := 10; SyncChain.target := finalizedTarget;
              SyncChain.syncType := RangeSyncType.Finalized;
              SyncChain.peers := ["A"]; SyncChain.isSyncing := true |}.
    split; [|by split]. vm_compute. right. left. }
  split; [exact Hex|].
  exact (proj1 (syncState_spec Instance.bothSyncing) Hex).
Defined.

(** A chain fails with an error that is not a cancellation. *)
Lemma runChain_settled_reevaluates_witness :
  (∀ e, Throw (OtherError "retries exhausted") = Throw (A:=unit) e →
        instanceof_ErrorAborted e = false)
  ∧ runChain_settled (Throw (OtherError "retries exhausted")) local
      Instance.joinedA
    = (Normal tt,
       update local (finalizedEpoch (getStatus local))
         (traced [Logger LogError "SyncChain error"; BeaconGetStatus]
                 Instance.joinedA)).
Proof.
  assert (∀ e, Throw (OtherError "retries exhausted") = Throw (A:=unit) e →
               instanceof_ErrorAborted e = false) as Hne.
  { intros e [= <-]. reflexivity. }
  split; [exact Hne|].
  exact (runChain_settled_reevaluates (H:=Instance.imports) _ local Instance.joinedA Hne).
Defined.

(** The first peer of a run is classified Head. *)
Lemma head_peer_attached_to_finalized_chain_witness :
  getRangeSyncType local local peerHead = RangeSyncType.Head
  ∧ ∃ r c,
      Map_get (getSyncChainId RangeSyncType.Finalized
                 {| slot := headSlot peerHead; root := headRoot peerHead |})
              (chains (addPeer_attached local "H" local peerHead (run [])))
      = Some r
      ∧ heap (addPeer_attached local "H" local peerHead (run [])) !! r = Some c
      ∧ "H" ∈ SyncChain.peers c
      ∧ SyncChain.syncType c = RangeSyncType.Finalized
      ∧ SyncChain.syncType c ≠ getRangeSyncType local local peerHead.
Proof.
  split; [reflexivity|].
  apply (head_peer_attached_to_finalized_chain (H:=Instance.imports) [] local "H" local peerHead).
  reflexivity.
Defined.


(** The first chain of the map has an empty pool: it is removed, then the
    surviving chain is started. *)
Lemma update_pass_order_witness :
  wf Instance.leftA
  ∧ chains (update local 10 Instance.leftA) = [("Finalized-200-0xbb02", 1%nat)]
  ∧ trace (update local 10 Instance.leftA)
    = trace Instance.leftA
      ++ [ChainRemove 0; Logger Debug "Removed chain";
          ChainGetMetadata 1; ChainStartSyncing 1 10]
  ∧ 0%nat ∉ toStart (updateChains
                       (values (update_evicted local 10 Instance.leftA))).
Proof.
  assert (wf Instance.leftA) as Hwf.
  { unfold wf. split_and!; vm_compute; repeat constructor; try lia;
      by intros ?%elem_of_nil || (intros ?%list_elem_of_singleton; done). }
  split; [exact Hwf|].
  destruct (update_pass_order (H:=Instance.imports) local 10 Instance.leftA Hwf)
    as (_ & (Hc & Ht) & Hsel).
  split; [|split].
  - rewrite Hc. reflexivity.
  - rewrite Ht. reflexivity.
  - refine (proj2 (Hsel _ "Finalized-800-0xaa01" 0%nat _)).
    + vm_compute. intros r Hr. exact Hr.
    + vm_compute. left.
Defined.

(** A run in which a chain applies a segment. *)
Lemma processChainSegment_trusted_witness :
  BeaconProcessChainSegment [{| message_slot := 80; signature := [] |}] true
    ∈ trace (run [CallAddPeer local "A" local peerFinalized;
                  CallProcessChainSegment (Normal tt)
                    [{| message_slot := 80; signature := [] |}]])
  ∧ true = true.
Proof.
  assert (BeaconProcessChainSegment
            [{| message_slot := 80; signature := [] |}] true
            ∈ trace (run [CallAddPeer local "A" local peerFinalized;
                          CallProcessChainSegment (Normal tt)
                            [{| message_slot := 80; signature := [] |}]]))
    as Hin.
  { vm_compute. do 5 right. left. }
  split; [exact Hin|].
  exact (proj2 (proj2 (proj2 (proj2
           (processChainSegment_trusted (H:=Instance.imports) (Normal tt) [] init)))) _ _ _ Hin).
Defined.

(** A request for slots 10 to 73: a response that lacks the last block is
    rejected, the full range is returned. *)
Example downloadBeaconBlocksByRange_one_short :
  let request := {| startSlot := 10; count := 64 |} in
  let response n :=
    (λ i, {| message_slot := 10 + N.of_nat i; signature := [] |})
      <$> seq 0 n in
  (downloadBeaconBlocksByRange (Normal (response 63%nat)) "A" request init).1
  = Throw BlocksByRangeError
  ∧ (downloadBeaconBlocksByRange (Normal (response 64%nat)) "A" request init).1
    = Normal (response 64%nat).
Proof. split; vm_compute; reflexivity. Qed.

End Examples.

(** ** Invariants of the runs *)

Section RunInvariants.
Context `{Imports}.

Lemma addPeerOrCreateChain_fields e t p ty st r c :
  heap st !! r = Some c →
  ∃ c', heap (addPeerOrCreateChain e t p ty st) !! r = Some c'
        ∧ SyncChain.startEpoch c' = SyncChain.startEpoch c
        ∧ SyncChain.target c' = SyncChain.target c
        ∧ SyncChain.syncType c' = SyncChain.syncType c.
Proof.
  intros Hc.
  assert (∀ c0, SyncChain.startEpoch (SyncChain.addPeer p c0)
                = SyncChain.startEpoch c0
                ∧ SyncChain.target (SyncChain.addPeer p c0) = SyncChain.target c0
                ∧ SyncChain.syncType (SyncChain.addPeer p c0)
                  = SyncChain.syncType c0) as Hadd.
  { intros c0. unfold SyncChain.addPeer. by case_decide. }
  destruct (Map_get (getSyncChainId ty t) (chains st)) as [r0|] eqn:Hg.
  - rewrite (addPeerOrCreateChain_existing _ _ _ _ _ r0) by done. simpl.
    rewrite list_lookup_alter. case_decide as Hr.
    + subst. rewrite Hc. simpl. eauto.
    + exists c. by split_and!.
  - rewrite addPeerOrCreateChain_new by done. simpl.
    exists c. split_and!; try done. by apply lookup_app_l_Some.
Qed.

Lemma keyed_evolves st st' : evolves st st' → keyed st → keyed st'.
Proof.
  intros Hev Hk id r Hin.
  destruct (Hk id r) as (c & Hc & ->).
  { eapply elem_of_sublist; [done|apply Hev]. }
  destruct (evolves_lookup _ _ _ _ Hev Hc) as (c' & Hc' & (_ & Et & Ety & _)).
  exists c'. split; [done|]. by rewrite Et, Ety.
Qed.

Lemma keyed_addPeerOrCreateChain e t p ty st :
  keyed st → keyed (addPeerOrCreateChain e t p ty st).
Proof.
  intros Hk id r Hin.
  assert ((id, r) ∈ chains st →
          ∃ c, heap (addPeerOrCreateChain e t p ty st) !! r = Some c
               ∧ id = getSyncChainId (SyncChain.syncType c) (SyncChain.target c))
    as Hold.
  { intros Hin0. destruct (Hk id r Hin0) as (c & Hc & ->).
    destruct (addPeerOrCreateChain_fields e t p ty st r c Hc)
      as (c' & Hc' & _ & Et & Ety). exists c'. split; [done|].
    by rewrite Et, Ety. }
  destruct (Map_get (getSyncChainId ty t) (chains st)) as [r0|] eqn:Hg.
  - apply Hold. by rewrite (addPeerOrCreateChain_existing _ _ _ _ _ r0) in Hin.
  - rewrite addPeerOrCreateChain_new in Hin by done. simpl in Hin.
    apply elem_of_app in Hin as [Hin|Hin]; [by apply Hold|].
    apply list_elem_of_singleton in Hin as [= -> ->].
    rewrite addPeerOrCreateChain_new by done. simpl.
    rewrite list_lookup_middle by done. eexists. split; [done|].
    unfold SyncChain.addPeer. by case_decide.
Qed.

Lemma keyed_run calls : keyed (run calls).
Proof.
  unfold run. induction calls as [|c calls IH] using rev_ind.
  { intros id r Hin. by apply elem_of_nil in Hin. }
  rewrite foldl_snoc. fold (run calls) in *.
  destruct c as [bc p l s| | | | |];
    try (eapply keyed_evolves; [apply evolves_exec|done]; done).
  simpl. rewrite addPeer_unfold.
  eapply keyed_evolves; [apply evolves_update|].
  rewrite addPeer_attached_eq. apply keyed_addPeerOrCreateChain.
  eapply keyed_evolves; [apply evolves_addPeer_removed|done].
Qed.

(** In every run, each entry of the map sits under the id computed from the
    sync type and target of the chain it holds, ids and objects are not
    repeated, and so two entries never hold chains with the same sync type
    and target. *)
Theorem chains_keyed_by_own_id (calls : list Call) :
  let st := run calls in
  keyed st
  ∧ NoDup (chains st).*1 ∧ NoDup (chains st).*2
  ∧ ∀ id1 r1 c1 id2 r2 c2,
      (id1, r1) ∈ chains st → (id2, r2) ∈ chains st →
      heap st !! r1 = Some c1 → heap st !! r2 = Some c2 →
      SyncChain.syncType c1 = SyncChain.syncType c2 →
      SyncChain.target c1 = SyncChain.target c2 →
      id1 = id2 ∧ r1 = r2.
Proof.
  intros st. pose proof (keyed_run calls) as Hk.
  pose proof (wf_run calls) as (N1 & N2 & _). fold st in Hk, N1, N2.
  split_and!; [done..|].
  intros id1 r1 c1 id2 r2 c2 H1 H2 Hc1 Hc2 Hty Ht.
  destruct (Hk id1 r1 H1) as (c1' & Hc1' & E1).
  destruct (Hk id2 r2 H2) as (c2' & Hc2' & E2).
  assert (id1 = id2) as -> by congruence.
  split; [done|]. by eapply NoDup_fst_elem.
Qed.

Lemma NoDup_bounded_length (l : list nat) n :
  NoDup l → Forall (λ x, (x < n)%nat) l → (length l ≤ n)%nat.
Proof.
  intros Hnd Hall.
  assert (l ⊆+ seq 0 n) as Hsub.
  { apply NoDup_submseteq; [done|]. intros x Hx.
    rewrite Forall_forall in Hall. apply elem_of_seq. specialize (Hall x Hx). lia. }
  apply submseteq_length in Hsub. by rewrite length_seq in Hsub.
Qed.

Lemma evolves_exec_other st c :
  isAddPeer c = false → evolves st (exec st c).
Proof. intros Hc. apply evolves_exec. intros bc p l s ->. done. Qed.

Lemma heap_length_exec st c :
  (length (heap (exec st c))
   ≤ length (heap st) + (if isAddPeer c then 1 else 0))%nat.
Proof.
  destruct (isAddPeer c) eqn:Hadd.
  2:{ destruct (evolves_exec_other st c Hadd) as (-> & _). lia. }
  destruct c as [bc p l s| | | | |]; try done.
  simpl. rewrite addPeer_unfold.
  destruct (evolves_update bc (finalizedEpoch l)
              (addPeer_attached bc p l s st)) as (-> & _).
  rewrite addPeer_attached_eq.
  destruct (evolves_addPeer_removed p st) as (L & _).
  destruct (Map_get (getSyncChainId RangeSyncType.Finalized
                       (addPeer_start bc l s).2)
                    (chains (addPeer_removed p st))) as [r|] eqn:Hg.
  - rewrite (addPeerOrCreateChain_existing _ _ _ _ _ r) by done. simpl.
    rewrite length_alter. lia.
  - rewrite addPeerOrCreateChain_new by done. simpl.
    rewrite length_app. simpl. lia.
Qed.

(** Chains are constructed by [addPeer] only, one per call at most: in every
    run the map has no more entries than chains were constructed, and no
    more chains were constructed than [addPeer] was called. *)
Theorem chains_bounded_by_addPeer_calls (calls : list Call) :
  (length (chains (run calls)) ≤ length (heap (run calls)))%nat
  ∧ (length (heap (run calls)) ≤ length (filter (λ c, isAddPeer c = true) calls))%nat
  ∧ ∀ c, isAddPeer c = false →
         length (heap (exec (run calls) c)) = length (heap (run calls)).
Proof.
  split_and!.
  - destruct (wf_run calls) as (_ & N2 & V).
    rewrite <- (length_fmap snd). apply NoDup_bounded_length; [done|].
    by apply Forall_fmap.
  - unfold run. induction calls as [|c calls IH] using rev_ind; [done|].
    rewrite foldl_snoc, filter_app, length_app.
    pose proof (heap_length_exec (foldl exec init calls) c) as Hc.
    rewrite filter_cons. destruct (isAddPeer c); simpl in *; lia.
  - intros c Hc. by destruct (evolves_exec_other (run calls) c Hc) as (-> & _).
Qed.

Lemma syncState_loop_finalized_only cs acc :
  (∀ c, c ∈ cs → SyncChain.syncType c = RangeSyncType.Finalized) →
  (∃ target, syncState_loop cs acc = StatusFinalized target)
  ∨ syncState_loop cs acc
    = if (0 <? length acc)%nat then StatusHead acc else StatusIdle.
Proof.
  induction cs as [|c cs IH]; intros Hall; [by right|].
  simpl. destruct (SyncChain.isSyncing c).
  - rewrite (Hall c) by (by left). left. by eexists.
  - apply IH. intros c' Hc'. apply Hall. by right.
Qed.

(** In every run, [syncState] reports Idle or Finalized and never Head: the
    chains of the map all have sync type Finalized, the type [addPeer] hands
    to [addPeerOrCreateChain] whatever the classification of the peer. *)
Theorem syncState_never_head (calls : list Call) :
  (∀ id r c, (id, r) ∈ chains (run calls) → heap (run calls) !! r = Some c →
             SyncChain.syncType c = RangeSyncType.Finalized)
  ∧ (syncState (run calls) = StatusIdle
     ∨ ∃ target, syncState (run calls) = StatusFinalized target).
Proof.
  pose proof (run_syncType calls) as Hall. rewrite Forall_lookup in Hall.
  split; [by eauto|].
  destruct (syncState_loop_finalized_only (values (run calls)).*2 [])
    as [?|?]; [|by right|by left].
  intros c ([r c'] & -> & Hin)%list_elem_of_fmap.
  apply list_elem_of_omap in Hin as (e & _ & Hc).
  apply fmap_Some in Hc as (c0 & Hc0 & [= _ <-]). by eapply Hall.
Qed.

Lemma pool_foldl_call {X} (ev : X → Event) f (g : X → Ref) l st r :
  (∀ c, SyncChain.peers (f c) = SyncChain.peers c) →
  pool (heap (foldl (λ st x, call (ev x) f (g x) st) st l)) r
  = pool (heap st) r.
Proof.
  intros Hf. revert st. induction l as [|x l IH]; intros st; [done|].
  simpl. rewrite IH. unfold pool. simpl. rewrite list_lookup_alter.
  case_decide as E; [rewrite E|done].
  destruct (heap st !! r); simpl; by rewrite ?Hf.
Qed.

Lemma pool_runChain_begin_loop e rs st r :
  pool (heap (foldl (runChain_begin e) st rs)) r = pool (heap st) r.
Proof.
  revert st. induction rs as [|x rs IH]; intros st; [done|].
  simpl. rewrite IH. unfold pool, runChain_begin. simpl.
  rewrite !list_lookup_alter. case_decide as E; [subst x|].
  - rewrite decide_True by done. by destruct (heap st !! r).
  - done.
Qed.

(** The chains that survive an [update] pass keep their pools. *)
Lemma update_pool_survivor bc e st id r :
  wf st → (id, r) ∈ chains (update bc e st) →
  pool (heap (update bc e st)) r = pool (heap st) r.
Proof.
  intros (N1 & N2 & V). unfold update.
  set (s := computeStartSlotAtEpoch config e).
  destruct (update_evict_loop bc s (chains st) st N2) as (Eh & Ec & _).
  set (st1 := foldl (update_evict bc s) st (chains st)) in *.
  destruct (runChain_begin_loop e (toStart (updateChains (values st1)))
              (foldl (λ st r, call (ChainStopSyncing r) SyncChain.stopSyncing
                                   r st)
                     st1 (toStop (updateChains (values st1))))) as [-> _].
  rewrite (foldl_call_chains ChainStopSyncing), pool_runChain_begin_loop,
    (pool_foldl_call ChainStopSyncing) by done.
  rewrite Ec. intros [Hout Hin]%list_elem_of_filter. simpl in Hout.
  unfold pool. rewrite Eh, apply_all_notin; [done|].
  intros ([id' r'] & -> & [Hev Hin']%list_elem_of_filter)%list_elem_of_fmap.
  simpl in *. apply Hout. apply list_elem_of_fmap. exists (id', r').
  split; [|by apply list_elem_of_filter].
  simpl. by eapply NoDup_snd_elem.
Qed.

(** After [addPeer] in a run, the chains of the map whose pool holds the
    peer are exactly those under the id of the target computed for it: one
    chain, or none when the [update] pass that ends the call has evicted
    it. *)
Theorem addPeer_pool_membership (calls : list Call) (bc : IBeaconChain)
    (peerId : PeerId) (localStatus peerStatus : Status) :
  let st' := addPeer bc peerId localStatus peerStatus (run calls) in
  let id := getSyncChainId RangeSyncType.Finalized
              (addPeer_start bc localStatus peerStatus).2 in
  ∀ id' r', (id', r') ∈ chains st' →
            (peerId ∈ pool (heap st') r' ↔ id' = id).
Proof.
  intros st' id id' r' Hin.
  set (att := addPeer_attached bc peerId localStatus peerStatus (run calls)).
  assert (wf att) as Hwf by apply wf_addPeer_attached, wf_run.
  assert (evolves att st') as Hev.
  { subst st' att. rewrite addPeer_unfold. apply evolves_update. }
  assert (∃ r, Map_get id (chains att) = Some r ∧ peerId ∈ pool (heap att) r)
    as (r & Hg & Hp).
  { subst att. rewrite addPeer_attached_eq.
    destruct (addPeerOrCreateChain_attached
                (addPeer_start bc localStatus peerStatus).1
                (addPeer_start bc localStatus peerStatus).2 peerId
                RangeSyncType.Finalized (addPeer_removed peerId (run calls)))
      as (r & c & Hr & Hc & Hp & _).
    { eapply evolves_wf; [apply evolves_addPeer_removed|apply wf_run]. }
    exists r. split; [done|]. unfold pool. by rewrite Hc. }
  assert ((id', r') ∈ chains att) as Hin'.
  { eapply elem_of_sublist; [done|apply Hev]. }
  split.
  - intros Hp'. apply (evolves_pool _ _ _ Hev) in Hp'.
    assert (inOnePool peerId att) as Hone.
    { apply holders_inOnePool, unique_addPeer_attached;
        [apply wf_run|intros; apply unique_run]. }
    by destruct (Hone id' r' id r Hin' (Map_get_Some_elem _ _ _ Hg) Hp' Hp).
  - intros ->. subst st'. rewrite addPeer_unfold in Hin |- *. fold att in Hin |- *.
    rewrite (update_pool_survivor _ _ _ id r') by done.
    destruct Hwf as (N1 & _).
    by rewrite (NoDup_fst_elem _ _ _ _ N1 Hin' (Map_get_Some_elem _ _ _ Hg)).
Qed.

Lemma apply_all_lookup_idemp f rs h r :
  (∀ c, f (f c) = f c) →
  apply_all f rs h !! r = if decide (r ∈ rs) then f <$> h !! r else h !! r.
Proof.
  intros Hf. case_decide; [by apply apply_all_idemp|by apply apply_all_notin].
Qed.

(** [removePeer] calls [removePeer] on every chain of the map, in order, and
    nothing else: the map keeps all its entries (a chain whose pool becomes
    empty stays until the next [update] pass), no chain is stopped, started
    or removed, no pool of the map holds the peer afterwards, the other peers
    stay where they are, and a second [removePeer] changes no chain. *)
Theorem removePeer_frame (peerId : PeerId) (st : State) :
  chains (removePeer peerId st) = chains st
  ∧ trace (removePeer peerId st)
    = trace st ++ ((λ e, ChainRemovePeer e.2 peerId) <$> chains st)
  ∧ length (heap (removePeer peerId st)) = length (heap st)
  ∧ (∀ id r, (id, r) ∈ chains st → peerId ∉ pool (heap (removePeer peerId st)) r)
  ∧ (∀ q r, q ≠ peerId →
       q ∈ pool (heap (removePeer peerId st)) r ↔ q ∈ pool (heap st) r)
  ∧ heap (removePeer peerId (removePeer peerId st)) = heap (removePeer peerId st).
Proof.
  assert (∀ c, SyncChain.removePeer peerId (SyncChain.removePeer peerId c)
               = SyncChain.removePeer peerId c) as Hidem.
  { intros c. unfold SyncChain.removePeer. simpl. f_equal.
    rewrite list_filter_filter. apply filter_ext_elem. tauto. }
  assert (∀ st0, heap (removePeer peerId st0)
                 = apply_all (SyncChain.removePeer peerId) (chains st0).*2
                     (heap st0)) as Hheap.
  { intros st0. unfold removePeer.
    by rewrite (foldl_call_heap (λ e, ChainRemovePeer e.2 peerId)). }
  assert (chains (removePeer peerId st) = chains st) as Hch.
  { unfold removePeer.
    by rewrite (foldl_call_chains (λ e, ChainRemovePeer e.2 peerId)). }
  split_and!.
  - done.
  - unfold removePeer.
    by rewrite (foldl_call_trace (λ e, ChainRemovePeer e.2 peerId)).
  - apply evolves_removePeer.
  - intros id r Hin Hp.
    pose proof (holders_removePeer peerId st) as Hnone. unfold holders in Hnone.
    rewrite Hch in Hnone.
    exact (filter_nil_not_elem_of _ _ (id, r) Hnone Hp Hin).
  - intros q r Hq. unfold pool.
    rewrite Hheap, apply_all_lookup_idemp by done.
    case_decide; [|done]. destruct (heap st !! r) as [c|]; simpl; [|done].
    rewrite list_elem_of_filter. tauto.
  - rewrite (Hheap (removePeer peerId st)), Hch, Hheap.
    apply list_eq. intros r. rewrite !apply_all_lookup_idemp by done.
    case_decide; [|done].
    destruct (heap st !! r); simpl; by rewrite ?Hidem.
Qed.

(** A peer that joins a chain already in the map does not change what the
    chain was constructed with: no chain is constructed, and the chain keeps
    its start epoch and target, whatever start epoch [addPeer] has computed
    for the new peer. *)
Theorem addPeer_existing_chain_keeps_start (bc : IBeaconChain)
    (peerId : PeerId) (localStatus peerStatus : Status) (st : State)
    (r : Ref) (c : SyncChain.t) :
  Map_get (getSyncChainId RangeSyncType.Finalized
             (addPeer_start bc localStatus peerStatus).2) (chains st)
  = Some r →
  heap st !! r = Some c →
  length (heap (addPeer bc peerId localStatus peerStatus st)) = length (heap st)
  ∧ ∃ c', heap (addPeer bc peerId localStatus peerStatus st) !! r = Some c'
          ∧ SyncChain.startEpoch c' = SyncChain.startEpoch c
          ∧ SyncChain.target c' = SyncChain.target c.
Proof.
  intros Hg Hc. rewrite addPeer_unfold, addPeer_attached_eq.
  pose proof (evolves_addPeer_removed peerId st) as Hrem.
  rewrite <- (addPeer_removed_chains peerId st) in Hg.
  destruct (evolves_lookup _ _ r c Hrem Hc) as (c1 & Hc1 & (E1 & T1 & _)).
  destruct (addPeerOrCreateChain_fields
              (addPeer_start bc localStatus peerStatus).1
              (addPeer_start bc localStatus peerStatus).2 peerId
              RangeSyncType.Finalized _ r c1 Hc1) as (c2 & Hc2 & E2 & T2 & _).
  pose proof (evolves_update bc (finalizedEpoch localStatus)
                (addPeerOrCreateChain
                   (addPeer_start bc localStatus peerStatus).1
                   (addPeer_start bc localStatus peerStatus).2 peerId
                   RangeSyncType.Finalized (addPeer_removed peerId st)))
    as Hup.
  destruct (evolves_lookup _ _ r c2 Hup Hc2) as (c3 & Hc3 & (E3 & T3 & _)).
  split.
  - destruct Hup as (-> & _), Hrem as (<- & _).
    rewrite (addPeerOrCreateChain_existing _ _ _ _ _ r) by done. simpl.
    by rewrite length_alter.
  - exists c3. split; [done|]. split; congruence.
Qed.

End RunInvariants.

(** ** The start epoch and the target of the chain a peer is attached to *)

Section StartAndTarget.
Context `{Imports}.

(** C5 (amended). For a peer classified Finalized, [addPeer] computes the
    local finalized epoch as start epoch and the peer's finalized checkpoint
    as target (start slot of its finalized epoch, its finalized root); for a
    peer classified Head, the minimum of the epoch of the local head slot
    and the peer's finalized epoch as start epoch and the peer's head (slot
    and root) as target.  These are handed to [addPeerOrCreateChain], and in
    every run the peer is attached to the chain under the id of that target.
    A chain constructed by the call carries that start epoch and that
    target.  A chain that was in the map under the id keeps the start epoch
    and the target it was constructed with: its id is the id of the computed
    target, so its target is the computed one (slots being Number values),
    and its start epoch is whatever the call that constructed it computed.
    The [update] pass that ends the call changes neither. *)
Theorem addPeer_start_and_target (calls : list Call) (bc : IBeaconChain)
    (peerId : PeerId) (localStatus peerStatus : Status) :
  let st := run calls in
  let startEpoch := (addPeer_start bc localStatus peerStatus).1 in
  let target := (addPeer_start bc localStatus peerStatus).2 in
  let id := getSyncChainId RangeSyncType.Finalized target in
  let attached := addPeer_attached bc peerId localStatus peerStatus st in
  let st' := addPeer bc peerId localStatus peerStatus st in
  (getRangeSyncType bc localStatus peerStatus = RangeSyncType.Finalized →
   startEpoch = finalizedEpoch localStatus
   ∧ target
     = {| slot := computeStartSlotAtEpoch config (finalizedEpoch peerStatus);
          root := finalizedRoot peerStatus |})
  ∧ (getRangeSyncType bc localStatus peerStatus = RangeSyncType.Head →
     startEpoch
     = N.min (computeEpochAtSlot config (headSlot localStatus))
             (finalizedEpoch peerStatus)
     ∧ target = {| slot := headSlot peerStatus; root := headRoot peerStatus |})
  ∧ st' = update bc (finalizedEpoch localStatus)
            (addPeerOrCreateChain startEpoch target peerId
               RangeSyncType.Finalized (addPeer_removed peerId st))
  ∧ ∃ r c c',
      Map_get id (chains attached) = Some r
      ∧ heap attached !! r = Some c
      ∧ peerId ∈ SyncChain.peers c
      ∧ heap st' !! r = Some c'
      ∧ SyncChain.startEpoch c' = SyncChain.startEpoch c
      ∧ SyncChain.target c' = SyncChain.target c
      ∧ getSyncChainId (SyncChain.syncType c) (SyncChain.target c) = id
      ∧ (isNumber (slot target) → isNumber (slot (SyncChain.target c)) →
         SyncChain.target c = target)
      ∧ match Map_get id (chains st) with
        | None =>
            r = length (heap st)
            ∧ SyncChain.startEpoch c = startEpoch
            ∧ SyncChain.target c = target
        | Some r0 =>
            r = r0
            ∧ ∃ c0, heap st !! r0 = Some c0
                    ∧ SyncChain.startEpoch c = SyncChain.startEpoch c0
                    ∧ SyncChain.target c = SyncChain.target c0
        end.
Proof.
  intros st startEpoch target id attached st'. split_and!.
  - intros Hty. subst startEpoch target. unfold addPeer_start.
    by rewrite Hty.
  - intros Hty. subst startEpoch target. unfold addPeer_start.
    by rewrite Hty.
  - subst st'. by rewrite addPeer_unfold, addPeer_attached_eq.
  - assert (wf st) as Hwf by apply wf_run.
    pose proof (evolves_addPeer_removed peerId st) as Hrem.
    assert (wf (addPeer_removed peerId st)) as Hwfr by (by eapply evolves_wf).
    assert (keyed attached) as Hk.
    { subst attached. rewrite addPeer_attached_eq.
      apply keyed_addPeerOrCreateChain.
      eapply keyed_evolves; [exact Hrem|apply keyed_run]. }
    destruct (addPeerOrCreateChain_attached startEpoch target peerId
                RangeSyncType.Finalized (addPeer_removed peerId st) Hwfr)
      as (r & c & Hr & Hc & Hp & Hcase).
    subst startEpoch target.
    rewrite <- addPeer_attached_eq in Hr, Hc.
    fold attached id in Hr, Hc. fold id in Hcase.
    rewrite addPeer_removed_chains in Hcase.
    assert (evolves attached st') as Hup.
    { subst st' attached. rewrite addPeer_unfold. apply evolves_update. }
    destruct (evolves_lookup _ _ r c Hup Hc) as (c' & Hc' & (E' & T' & _)).
    destruct (Hk id r) as (c1 & Hc1 & Hid);
      [by apply Map_get_Some_elem|].
    rewrite Hc in Hc1. injection Hc1 as <-.
    exists r, c, c'. split_and!; try done.
    + intros N1 N2. symmetry in Hid.
      by destruct (getSyncChainId_inj _ _ _ _ N2 N1 Hid).
    + destruct (Map_get id (chains st)) as [r0|] eqn:Hg.
      * destruct Hcase as (-> & _ & _). split; [done|].
        destruct (lookup_lt_is_Some_2 (heap st) r0) as [c0 Hc0].
        { by eapply wf_ref_valid. }
        exists c0. split; [done|].
        destruct (evolves_lookup _ _ r0 c0 Hrem Hc0) as (c1 & Hc1 & (E1 & T1 & _)).
        destruct (addPeerOrCreateChain_fields
                    (addPeer_start bc localStatus peerStatus).1
                    (addPeer_start bc localStatus peerStatus).2 peerId
                    RangeSyncType.Finalized _ r0 c1 Hc1)
          as (c2 & Hc2 & E2 & T2 & _).
        rewrite <- addPeer_attached_eq in Hc2. fold attached in Hc2.
        rewrite Hc in Hc2. injection Hc2 as <-. split; congruence.
      * destruct Hcase as (-> & ->). destruct Hrem as (L & _).
        split; [done|]. unfold SyncChain.addPeer. by case_decide.
Qed.
End StartAndTarget.

(** ** The invariants on concrete peers *)

Section RunExamples.
#[local] Existing Instance Instance.imports.

(** Peer A joins an empty map: its chain is the one under the id of its
    finalized checkpoint. *)
Lemma addPeer_pool_membership_witness :
  ("Finalized-800-0xaa01", 0%nat)
    ∈ chains (addPeer Instance.local "A" Instance.local Instance.peerFinalized
                (run []))
  ∧ ("A" ∈ pool (heap (addPeer Instance.local "A" Instance.local
                         Instance.peerFinalized (run []))) 0
     ↔ "Finalized-800-0xaa01"
       = getSyncChainId RangeSyncType.Finalized
           (addPeer_start Instance.local Instance.local
              Instance.peerFinalized).2).
Proof.
  assert (("Finalized-800-0xaa01", 0%nat)
            ∈ chains (addPeer Instance.local "A" Instance.local
                        Instance.peerFinalized (run []))) as Hin.
  { vm_compute. left. }
  split; [exact Hin|].
  exact (addPeer_pool_membership (H:=Instance.imports) [] Instance.local "A"
           Instance.local Instance.peerFinalized _ _ Hin).
Defined.

(** Peer B joins the chain of peer A when the local node has finalized
    epoch 12: the start epoch computed for B is 12, the chain keeps 10. *)
Lemma addPeer_existing_chain_keeps_start_witness :
  let later :=
    {| finalizedRoot := Instance.rootL; finalizedEpoch := 12;
       headRoot := Instance.rootL; headSlot := 100 |} in
  let chainA :=
    {| SyncChain.startEpoch := 10; SyncChain.target := Instance.finalizedTarget;
       SyncChain.syncType := RangeSyncType.Finalized;
       SyncChain.peers := ["A"]; SyncChain.isSyncing := true |} in
  (addPeer_start Instance.local later Instance.peerFinalized).1 = 12
  ∧ Map_get (getSyncChainId RangeSyncType.Finalized
               (addPeer_start Instance.local later Instance.peerFinalized).2)
            (chains Instance.joinedA) = Some 0%nat
  ∧ heap Instance.joinedA !! 0%nat = Some chainA
  ∧ length (heap (addPeer Instance.local "B" later Instance.peerFinalized
                    Instance.joinedA))
    = length (heap Instance.joinedA)
  ∧ ∃ c', heap (addPeer Instance.local "B" later Instance.peerFinalized
                  Instance.joinedA) !! 0%nat = Some c'
          ∧ SyncChain.startEpoch c' = 10
          ∧ SyncChain.target c' = Instance.finalizedTarget.
Proof.
  intros later chainA.
  split; [reflexivity|]. split; [reflexivity|]. split; [reflexivity|].
  exact (addPeer_existing_chain_keeps_start (H:=Instance.imports)
           Instance.local "B" later Instance.peerFinalized Instance.joinedA
           0%nat chainA eq_refl eq_refl).
Defined.


(** Peer A, classified Finalized, joins an empty map: the chain constructed
    for it starts at the local finalized epoch and has the finalized
    checkpoint of A as target. *)
Lemma addPeer_start_and_target_witness :
  getRangeSyncType Instance.local Instance.local Instance.peerFinalized
  = RangeSyncType.Finalized
  ∧ (addPeer_start Instance.local Instance.local Instance.peerFinalized).1
    = finalizedEpoch Instance.local
  ∧ (addPeer_start Instance.local Instance.local Instance.peerFinalized).2
    = Instance.finalizedTarget
  ∧ ∃ r c,
      Map_get "Finalized-800-0xaa01"
        (chains (addPeer_attached Instance.local "A" Instance.local
                   Instance.peerFinalized (run []))) = Some r
      ∧ heap (addPeer_attached Instance.local "A" Instance.local
                Instance.peerFinalized (run [])) !! r = Some c
      ∧ "A" ∈ SyncChain.peers c
      ∧ SyncChain.startEpoch c = 10
      ∧ SyncChain.target c = Instance.finalizedTarget.
Proof.
  split; [reflexivity|].
  destruct (addPeer_start_and_target (H:=Instance.imports) []
              Instance.local "A" Instance.local Instance.peerFinalized)
    as (HF & _ & _ & r & c & _ & Hr & Hc & Hp & _ & _ & _ & _ & _ & Hcase).
  destruct (HF eq_refl) as [He Ht].
  split; [exact He|]. split; [exact Ht|].
  change (r = 0%nat ∧ SyncChain.startEpoch c = 10
          ∧ SyncChain.target c = Instance.finalizedTarget) in Hcase.
  destruct Hcase as (_ & Hs & Htc).
  exists r, c. split; [exact Hr|]. split; [exact Hc|]. split; [exact Hp|].
  split; [exact Hs|exact Htc].
Defined.

(** The chain a peer joins keeps its start epoch.  Peer B, classified
    Finalized when the local node has finalized epoch 11, joins the chain of
    peer A, which starts at epoch 10.  Peer G, classified Head with
    finalized epoch 9, joins the chain of peer H: the chain starts at epoch
    10 and stays in the map, while the minimum of the epoch of the local
    head slot and the finalized epoch of G is 9. *)
Lemma addPeer_start_and_target_counterexample :
  let later :=
    {| finalizedRoot := Instance.rootL; finalizedEpoch := 11;
       headRoot := Instance.rootL; headSlot := 100 |} in
  let behind :=
    {| finalizedRoot := Instance.rootL; finalizedEpoch := 9;
       headRoot := Instance.rootB; headSlot := 200 |} in
  let joinedH :=
    run [CallAddPeer Instance.local "H" Instance.local Instance.peerHead] in
  (getRangeSyncType Instance.local later Instance.peerFinalized
   = RangeSyncType.Finalized
   ∧ ∃ c, heap (addPeer_attached Instance.local "B" later
                  Instance.peerFinalized Instance.joinedA) !! 0%nat = Some c
          ∧ "B" ∈ SyncChain.peers c
          ∧ SyncChain.startEpoch c = 10
          ∧ SyncChain.startEpoch c ≠ finalizedEpoch later)
  ∧ (getRangeSyncType Instance.local Instance.local behind
     = RangeSyncType.Head
     ∧ ∃ c, Map_get "Finalized-200-0xbb02"
              (chains (addPeer Instance.local "G" Instance.local behind
                         joinedH)) = Some 0%nat
            ∧ heap (addPeer Instance.local "G" Instance.local behind joinedH)
                !! 0%nat = Some c
            ∧ "G" ∈ SyncChain.peers c
            ∧ SyncChain.startEpoch c = 10
            ∧ SyncChain.startEpoch c
              ≠ N.min (computeEpochAtSlot config (headSlot Instance.local))
                      (finalizedEpoch behind)).
Proof.
  intros later behind joinedH. split.
  - split; [reflexivity|]. eexists. split; [reflexivity|].
    split; [vm_compute; right; left|]. split; [reflexivity|discriminate].
  - split; [reflexivity|]. eexists. split; [reflexivity|].
    split; [reflexivity|]. split; [vm_compute; right; left|].
    split; [reflexivity|discriminate].
Qed.


End RunExamples.

(** * Properties of the validator keystore import *)

Module ValidatorImportFacts.
Import ValidatorImport.

Section Passphrase.
Context `{Env}.

Ltac run_io :=
  unfold getKeystorePassphrase, bind, try_catch, eval, emit, inspect, mutate,
    console_log, ret, raise in *;
  cbn [fst snd fs trace] in *.

(** Cases on every outcome a computation branches on. *)
Ltac io_cases :=
  repeat match goal with
         | |- context [match ?x with _ => _ end] =>
             lazymatch x with
             | context [match _ with _ => _ end] => fail
             | _ => destruct x eqn:?; cbn [fst snd fs trace] in *
             end
         end.

(** Which file [getKeystorePassphrase] takes the passphrase from, and what
    happens when the file fails.  The file is [passphraseFile] when it is
    given, else the first passphrase path that ends with the public key; an
    empty or missing file name leads to the prompt.  With [passphraseFile]
    given, the passphrase paths play no part.  A file that cannot be read
    makes the call fail at once; a file whose passphrase does not open the
    keystore is reported and the user is asked; a file that opens the
    keystore is returned as it was read, newlines included, and the user is
    not asked. *)
Theorem getKeystorePassphrase_file (keystore : Keystore)
    (passphrasePaths : list string) (passphraseFile : option string)
    (w : World) :
  let source :=
    truthy (match passphraseFile with
            | Some file => Some file
            | None => List.find (λ path, endsWith path (pubkey keystore))
                                passphrasePaths
            end) in
  let result := getKeystorePassphrase keystore passphrasePaths passphraseFile w in
  (∀ file passphrasePaths', passphraseFile = Some file →
     getKeystorePassphrase keystore passphrasePaths' passphraseFile w = result)
  ∧ (∀ file e, source = Some file → readFileSync (fs w) file = Raise e →
       result = (Raise e, w))
  ∧ (∀ file passphrase, source = Some file →
       readFileSync (fs w) file = Ok passphrase →
       decrypt keystore (stripOffNewlines passphrase) = Ok tt →
       result = (Ok passphrase,
                 {| fs := fs w;
                    trace := trace w ++ [ConsoleLog (MsgImportedPassphrase file)] |}))
  ∧ (∀ file passphrase e password, source = Some file →
       readFileSync (fs w) file = Ok passphrase →
       decrypt keystore (stripOffNewlines passphrase) = Raise e →
       promptPassword keystore = Ok password →
       result = (Ok password,
                 {| fs := fs w;
                    trace := trace w
                             ++ [ConsoleLog (MsgInvalidPassphrase file e);
                                 ConsoleLog MsgPlainTextWarning;
                                 Prompt (pubkey keystore);
                                 ConsoleLog MsgPasswordCorrect; Sleep 1000] |}))
  ∧ (∀ password, source = None → promptPassword keystore = Ok password →
       result = (Ok password,
                 {| fs := fs w;
                    trace := trace w
                             ++ [ConsoleLog MsgPlainTextWarning;
                                 Prompt (pubkey keystore);
                                 ConsoleLog MsgPasswordCorrect; Sleep 1000] |})).
Proof.
  intros source result. subst source result. split_and!.
  - by intros file pp' ->.
  - intros file e Hs Hr. run_io. rewrite Hs. cbn. by rewrite Hr.
  - intros file passphrase Hs Hr Hd. run_io. rewrite Hs. cbn.
    rewrite Hr. cbn. by rewrite Hd.
  - intros file passphrase e password Hs Hr Hd Hp. run_io. rewrite Hs. cbn.
    rewrite Hr. cbn. rewrite Hd. cbn. rewrite Hp. cbn.
    by rewrite <- !app_assoc.
  - intros password Hs Hp. run_io. rewrite Hs. cbn. rewrite Hp. cbn.
    by rewrite <- !app_assoc.
Qed.

(** [getKeystorePassphrase] is read-only and asks at most once: it leaves
    the file system as it is, what it appends to the trace are console
    messages, one pause and at most one prompt; and when the prompt only
    resolves with a password that opens the keystore (the [validate] of the
    prompt), a passphrase it returns opens the keystore once newlines are
    stripped. *)
Theorem getKeystorePassphrase_valid (keystore : Keystore)
    (passphrasePaths : list string) (passphraseFile : option string)
    (w : World) :
  let result := getKeystorePassphrase keystore passphrasePaths passphraseFile w in
  fs result.2 = fs w
  ∧ (∃ evs, trace result.2 = trace w ++ evs
            ∧ filter (λ ev, isEffect ev = true) evs
              `sublist_of` [Prompt (pubkey keystore)])
  ∧ ((∀ password, promptPassword keystore = Ok password →
        decrypt keystore (stripOffNewlines password) = Ok tt) →
     ∀ passphrase, result.1 = Ok passphrase →
       decrypt keystore (stripOffNewlines passphrase) = Ok tt).
Proof.
  intros result. subst result. run_io.
  destruct (truthy _) as [file|]; cbn;
    [destruct (readFileSync (fs w) file) as [passphrase|e]; cbn;
     [destruct (decrypt keystore (stripOffNewlines passphrase)) as [[]|e] eqn:Hd;
      cbn|]|];
    try (destruct (promptPassword keystore) as [password|e'] eqn:Hp; cbn);
    (split_and!;
     [done
     |first
        [by (eexists; split; [by rewrite <- ?app_assoc|]; cbn;
             first [by apply sublist_nil_l|done])
        |by (exists []; split; [by rewrite app_nil_r|apply sublist_nil_l])]
     |intros Hv ? E; try discriminate; injection E as <-; auto]).
Qed.

End Passphrase.

(** ** The loop over the keystores and the reports *)

Section Loop.
Context `{Env}.

Ltac run_loop :=
  unfold console_log, bind, try_catch, eval, emit, inspect, mutate, ret, raise in *;
  cbn [fst snd fs trace] in *.

(** What [getKeystorePassphrase] appends to the trace holds no report of
    [handler], no write of a passphrase and no skip message. *)
Lemma passphrase_events keystore passphrasePaths passphraseFile w :
  ∃ evs,
    trace (getKeystorePassphrase keystore passphrasePaths passphraseFile w).2
    = trace w ++ evs
    ∧ Forall (λ ev, isReport ev = false) evs
    ∧ imported evs = [] ∧ skipped evs = [].
Proof.
  unfold getKeystorePassphrase. run_loop.
  destruct (truthy _) as [file|]; cbn;
    [destruct (readFileSync (fs w) file) as [passphrase|e]; cbn;
     [destruct (decrypt keystore (stripOffNewlines passphrase)) as [[]|e];
      cbn|]|];
    try (destruct (promptPassword keystore) as [password|e']; cbn);
    first [by (eexists; split; [by rewrite <- ?app_assoc|];
               split_and!; [by repeat constructor|done..])
          |by (exists []; split; [by rewrite app_nil_r|done])].
Qed.



(** The keystores are imported one after the other and the loop exits at
    the first failure: importing two lists in a row is importing the first,
    then, if that ended normally, the second with the counter and the world
    the first has left; a failure in the first list is the failure of the
    whole, and nothing of the second list is touched. *)
Theorem importKeystores_sequential kd sd pp pf l1 l2 n w :
  importKeystores kd sd pp pf (l1 ++ l2) n w
  = match importKeystores kd sd pp pf l1 n w with
    | (Ok m, w') => importKeystores kd sd pp pf l2 m w'
    | (Raise e, w') => (Raise e, w')
    end.
Proof.
  revert n w. induction l1 as [|p l1 IH]; intros n w.
  { cbn. by destruct (importKeystores kd sd pp pf l2 n w) as [[]]. }
  cbn [app importKeystores]. run_loop.
  repeat match goal with
         | |- context [match ?x with _ => _ end] =>
             lazymatch x with
             | context [match _ with _ => _ end] => fail
             | importKeystores _ _ _ _ l1 _ _ => fail
             | _ => destruct x; cbn [fst snd fs trace]; try done
             end
         end; apply IH.
Qed.

(** Keystores whose validator directory exists, with or without the prefix,
    are skipped: the loop ends normally with the counter it started with,
    asks for no passphrase, leaves the file system as it is, and prints one
    skip message per keystore path. *)
Theorem importKeystores_skips_existing kd sd pp pf paths n w :
  Forall (alreadyImported kd (fs w)) paths →
  ∃ pubkeys,
    length pubkeys = length paths
    ∧ importKeystores kd sd pp pf paths n w
      = (Ok n, {| fs := fs w;
                  trace := trace w ++ (ConsoleLog ∘ MsgSkipping <$> pubkeys) |}).
Proof.
  revert w. induction paths as [|p rest IH]; intros w Hall.
  { exists []. cbn. rewrite app_nil_r. by destruct w. }
  apply Forall_cons in Hall as [(content & k & Hr & Hp & Hpk & Hex) Hall].
  destruct (IH {| fs := fs w;
                  trace := trace w ++ [ConsoleLog (MsgSkipping (pubkey k))] |}
              Hall) as (pubkeys & Hlen & Hrun).
  exists (pubkey k :: pubkeys). split; [cbn; lia|].
  cbn [importKeystores]. run_loop. rewrite Hr. cbn. rewrite Hp. cbn.
  rewrite decide_False by done. rewrite Hex. cbn in *.
  rewrite Hrun. cbn. by rewrite <- app_assoc.
Qed.


Lemma passphrase_fs keystore passphrasePaths passphraseFile w :
  fs (getKeystorePassphrase keystore passphrasePaths passphraseFile w).2 = fs w.
Proof.
  unfold getKeystorePassphrase. run_loop.
  destruct (truthy _) as [file|]; cbn;
    [destruct (readFileSync (fs w) file) as [passphrase|e]; cbn;
     [destruct (decrypt keystore (stripOffNewlines passphrase)) as [[]|e];
      cbn|]|];
    try (destruct (promptPassword keystore) as [password|e']; cbn); done.
Qed.

Lemma imported_app evs1 evs2 :
  imported (evs1 ++ evs2) = imported evs1 ++ imported evs2.
Proof. apply omap_app. Qed.

(** No validator is imported twice in one run.  On a file system that obeys
    [fsLaws], the public keys for which the loop writes a passphrase are
    pairwise distinct, none of them had a validator directory when the loop
    started, no path that existed is lost, and when the loop ends normally
    every one of them has its validator directory. *)
Theorem importKeystores_imports_once kd sd pp pf paths n w :
  fsLaws →
  let result := importKeystores kd sd pp pf paths n w in
  ∃ evs,
    trace result.2 = trace w ++ evs
    ∧ NoDup (imported evs)
    ∧ (∀ pubkey, pubkey ∈ imported evs →
         existsSync (fs w) (getValidatorDirPath kd pubkey true) = false
         ∧ existsSync (fs w) (getValidatorDirPath kd pubkey false) = false)
    ∧ (∀ path, existsSync (fs w) path = true →
               existsSync (fs result.2) path = true)
    ∧ (∀ m, result.1 = Ok m → ∀ pubkey, pubkey ∈ imported evs →
         existsSync (fs result.2) (getValidatorDirPath kd pubkey true) = true).
Proof.
  intros laws.
  destruct laws as (mkdirSync_exists & mkdirSync_keeps & writeFileSync_keeps
                    & writeValidatorPassphrase_keeps).
  unfold keepsPaths in *.
  cbv zeta. revert n w. induction paths as [|p rest IH]; intros n w.
  { exists []. cbn. rewrite app_nil_r.
    split_and!; [done|constructor|by intros ? ?%elem_of_nil|done
                |by intros ? _ ? ?%elem_of_nil]. }
  assert (Hstop : ∀ (o : Outcome nat) e0 w',
            o = Raise e0 → fs w' = fs w → trace w' = trace w →
            ∃ evs, trace w' = trace w ++ evs
              ∧ NoDup (imported evs)
              ∧ (∀ pk, pk ∈ imported evs →
                   existsSync (fs w) (getValidatorDirPath kd pk true) = false
                   ∧ existsSync (fs w) (getValidatorDirPath kd pk false) = false)
              ∧ (∀ q, existsSync (fs w) q = true → existsSync (fs w') q = true)
              ∧ (∀ m, o = Ok m → ∀ pk, pk ∈ imported evs →
                   existsSync (fs w') (getValidatorDirPath kd pk true) = true)).
  { intros o e0 w' -> Ef Et. exists []. rewrite app_nil_r, Ef.
    split_and!; [done|constructor|by intros ? ?%elem_of_nil|done|done]. }
  cbn [importKeystores]. run_loop.
  destruct (readFileSync (fs w) p) as [content|e]; cbn [fst snd fs trace];
    [|by eapply Hstop].
  destruct (Keystore_parse content) as [k|e]; cbn [fst snd fs trace];
    [|by eapply Hstop].
  destruct (decide (pubkey k = "")) as [Hpk|Hpk]; cbn [fst snd fs trace];
    [by eapply Hstop|].
  clear Hstop.
  destruct (existsSync _ _ || existsSync _ _) eqn:Hex; cbn [fst snd fs trace].
  - destruct (IH n {| fs := fs w;
                       trace := trace w ++ [ConsoleLog (MsgSkipping (pubkey k))] |})
      as (evs & Et & Hnd & Hfresh & Hmono & Hdone). cbn [fs trace] in *.
    exists (ConsoleLog (MsgSkipping (pubkey k)) :: evs).
    split_and!; [by rewrite Et, <- app_assoc|done..].
  - apply orb_false_elim in Hex as [HexT HexF].
    set (dir := getValidatorDirPath kd (pubkey k) true) in *.
    set (w1 := {| fs := fs w; trace := trace w ++ [_] |}).
    destruct (passphrase_events k pp pf w1) as (evsP & EtP & _ & HiP & _).
    pose proof (passphrase_fs k pp pf w1) as EfP.
    destruct (getKeystorePassphrase k pp pf w1) as [[passphrase|e] w2];
      subst w1; cbn [fst snd fs trace] in *.
    2:{ exists (ConsoleLog (MsgImporting p (pubkey k) (uuid k)) :: evsP).
        rewrite EfP, EtP, <- app_assoc.
        change (imported (_ :: evsP)) with (imported evsP). rewrite HiP.
        split_and!; [done|constructor|by intros ? ?%elem_of_nil|done|done]. }
    assert (Hwrap : ∀ evs0 (o : Outcome nat) (tr : list Event) (f : FS),
              tr = trace w2 ++ evs0 →
              NoDup (imported evs0) →
              (∀ pk, pk ∈ imported evs0 →
                 existsSync (fs w) (getValidatorDirPath kd pk true) = false
                 ∧ existsSync (fs w) (getValidatorDirPath kd pk false) = false) →
              (∀ q, existsSync (fs w) q = true → existsSync f q = true) →
              (∀ m, o = Ok m → ∀ pk, pk ∈ imported evs0 →
                 existsSync f (getValidatorDirPath kd pk true) = true) →
              ∃ evs, tr = trace w ++ evs
                ∧ NoDup (imported evs)
                ∧ (∀ pk, pk ∈ imported evs →
                     existsSync (fs w) (getValidatorDirPath kd pk true) = false
                     ∧ existsSync (fs w) (getValidatorDirPath kd pk false) = false)
                ∧ (∀ q, existsSync (fs w) q = true → existsSync f q = true)
                ∧ (∀ m, o = Ok m → ∀ pk, pk ∈ imported evs →
                     existsSync f (getValidatorDirPath kd pk true) = true)).
    { intros evs0 o tr f Et0 Hnd0 Hfresh0 Hmono0 Hdone0.
      exists (ConsoleLog (MsgImporting p (pubkey k) (uuid k)) :: evsP ++ evs0).
      change (imported (_ :: evsP ++ evs0)) with (imported (evsP ++ evs0)).
      rewrite imported_app, HiP. cbn [app].
      split_and!; [by rewrite Et0, EtP, <- !app_assoc|done..]. }
    rewrite EfP.
    destruct (mkdirSync sd (fs w)) as [fs1|e] eqn:E1; cbn [fst snd fs trace].
    2:{ apply (Hwrap [MkdirSync sd]);
          [done|constructor|by intros ? ?%elem_of_nil|done|done]. }
    destruct (mkdirSync dir fs1) as [fs2|e] eqn:E2; cbn [fst snd fs trace].
    2:{ apply (Hwrap [MkdirSync sd; MkdirSync dir]);
          [by rewrite <- ?app_assoc|constructor|by intros ? ?%elem_of_nil
          |cbn; eauto|done]. }
    destruct (writeFileSync _ _ fs2) as [fs3|e] eqn:E3; cbn [fst snd fs trace].
    2:{ eapply (Hwrap [MkdirSync sd; MkdirSync dir; WriteFileSync _ _]);
          [by rewrite <- ?app_assoc|constructor|by intros ? ?%elem_of_nil
          |cbn; eauto|done]. }
    destruct (writeValidatorPassphrase _ _ _ fs3) as [fs4|e] eqn:E4;
      cbn [fst snd fs trace].
    2:{ eapply (Hwrap [MkdirSync sd; MkdirSync dir; WriteFileSync _ _;
                       WriteValidatorPassphrase sd (pubkey k) passphrase]);
          [by rewrite <- ?app_assoc|apply NoDup_singleton
          |by intros ? ->%list_elem_of_singleton|cbn; eauto|done]. }
    assert (Hmono4 : ∀ q, existsSync (fs w) q = true → existsSync fs4 q = true)
      by eauto 6.
    assert (Hdir4 : existsSync fs4 dir = true) by eauto 6.
    match goal with
    | |- context [importKeystores kd sd pp pf rest (S n) ?w5] =>
        destruct (IH (S n) w5) as (evsR & EtR & HndR & HfreshR & HmonoR & HdoneR)
    end.
    cbn [fs trace] in *.
    assert (HfreshR' : ∀ pk, pk ∈ imported evsR →
              existsSync (fs w) (getValidatorDirPath kd pk true) = false
              ∧ existsSync (fs w) (getValidatorDirPath kd pk false) = false).
    { intros pk Hin. destruct (HfreshR pk Hin) as [HT HF]. split.
      - destruct (existsSync (fs w) (getValidatorDirPath kd pk true)) eqn:E;
          [|done].
        apply Hmono4 in E. congruence.
      - destruct (existsSync (fs w) (getValidatorDirPath kd pk false)) eqn:E;
          [|done].
        apply Hmono4 in E. congruence. }
    apply (Hwrap ([MkdirSync sd; MkdirSync dir;
                   WriteFileSync (path_join dir VOTING_KEYSTORE_FILE) (stringify k);
                   WriteValidatorPassphrase sd (pubkey k) passphrase;
                   ConsoleLog (MsgSuccess (pubkey k))] ++ evsR)).
    + rewrite EtR, <- !app_assoc. done.
    + change (imported (_ ++ evsR)) with (pubkey k :: imported evsR).
      constructor; [|done]. intros Hin. destruct (HfreshR _ Hin) as [HT _].
      fold dir in HT. congruence.
    + change (imported (_ ++ evsR)) with (pubkey k :: imported evsR).
      intros pk [->|Hin]%elem_of_cons; [done|auto].
    + auto.
    + change (imported (_ ++ evsR)) with (pubkey k :: imported evsR).
      intros m Hr pk [->|Hin]%elem_of_cons; [|eauto].
      apply HmonoR. done.
Qed.

(** The checks of the arguments.  Without a keystore and without a
    directory (absent or empty) the command fails with "Must supply either
    keystore or directory"; with a directory that holds no keystore it fails
    with "No keystores found"; in both cases nothing is printed and nothing
    is written.  The directory is searched for passphrase files before the
    checks, also when a single keystore is given: a failure of that search
    is the failure of the command. *)
Theorem handler_rejects (args : Args) (w : World) :
  (truthy (keystore args) = None → truthy (directory args) = None →
   handler args w
   = (Raise (YargsError "Must supply either keystore or directory"), w))
  ∧ (∀ d passphrasePaths,
       truthy (keystore args) = None → truthy (directory args) = Some d →
       recursivelyFind (fs w) d isVotingKeystore = Ok [] →
       recursivelyFind (fs w) d isPassphraseFile = Ok passphrasePaths →
       handler args w = (Raise (YargsError "No keystores found"), w))
  ∧ (∀ d e,
       truthy (directory args) = Some d →
       recursivelyFind (fs w) d isPassphraseFile = Raise e →
       (∀ e', truthy (keystore args) = None →
              recursivelyFind (fs w) d isVotingKeystore ≠ Raise e') →
       handler args w = (Raise e, w)).
Proof.
  unfold handler. destruct (getAccountPaths args) as [kd sd]. split_and!.
  - intros -> ->. done.
  - intros d pp -> -> Hk Hp. run_loop. by rewrite Hk, Hp.
  - intros d e -> Hp Hk. run_loop.
    destruct (truthy (keystore args)) as [single|]; cbn; [by rewrite Hp|].
    destruct (recursivelyFind (fs w) d isVotingKeystore) as [found|e'] eqn:E;
      cbn; [by rewrite Hp|].
    by destruct (Hk e').
Qed.

End Loop.

(** ** The theorems on concrete files *)

Section ImportExamples.
#[local] Existing Instance ImportInstance.env.

Local Abbreviation disk := ImportInstance.disk.
Local Abbreviation start := ImportInstance.start.
Local Abbreviation keystoreA := ImportInstance.keystoreA.

Lemma ImportInstance_fsLaws : fsLaws (H:=ImportInstance.env).
Proof.
  unfold fsLaws, keepsPaths. split_and!.
  - intros path fs0 fs' [= <-]. apply orb_true_iff. left. apply String.eqb_refl.
  - intros p path fs0 fs' [= <-] Hex. apply orb_true_iff. by right.
  - intros p content path fs0 fs' [= <-] Hex. apply orb_true_iff. by right.
  - intros sd pk passphrase path fs0 fs' [= <-] Hex. apply orb_true_iff.
    by right.
Defined.

(** The passphrase of validator aa is taken from the file whose name ends
    with its public key. *)
Lemma getKeystorePassphrase_file_witness :
  truthy (List.find (λ path, endsWith path (pubkey keystoreA)) ["in/aa"])
  = Some "in/aa"
  ∧ getKeystorePassphrase keystoreA ["in/aa"] None start
    = (Ok "secret",
       {| fs := disk; trace := [ConsoleLog (MsgImportedPassphrase "in/aa")] |}).
Proof.
  split; [reflexivity|].
  exact (proj1 (proj2 (proj2
           (getKeystorePassphrase_file (H:=ImportInstance.env) keystoreA
              ["in/aa"] None start)))
           "in/aa" "secret" eq_refl eq_refl eq_refl).
Defined.

(** The keystore of validator aa, whose directory exists, is skipped. *)
Lemma importKeystores_skips_existing_witness :
  Forall (alreadyImported "keystores" disk) ["in/keystore-a.json"]
  ∧ ∃ pubkeys,
      length pubkeys = 1%nat
      ∧ importKeystores "keystores" "secrets" [] None ["in/keystore-a.json"] 0
          start
        = (Ok 0%nat,
           {| fs := disk;
              trace := [] ++ (ConsoleLog ∘ MsgSkipping <$> pubkeys) |}).
Proof.
  assert (Forall (alreadyImported "keystores" disk) ["in/keystore-a.json"])
    as Hall.
  { repeat constructor. exists "aa", keystoreA.
    split; [reflexivity|]. split; [reflexivity|].
    split; [discriminate|reflexivity]. }
  split; [exact Hall|].
  exact (importKeystores_skips_existing (H:=ImportInstance.env) "keystores"
           "secrets" [] None ["in/keystore-a.json"] 0%nat start Hall).
Defined.

(** The keystore of validator bb is listed twice: the second time its
    directory exists. *)
Lemma importKeystores_imports_once_witness :
  fsLaws (H:=ImportInstance.env)
  ∧ ∃ evs,
      trace (importKeystores "keystores" "secrets" [] None
               ["in/keystore-b.json"; "in/keystore-b.json"] 0 start).2
      = [] ++ evs
      ∧ NoDup (imported evs).
Proof.
  split; [exact ImportInstance_fsLaws|].
  destruct (importKeystores_imports_once (H:=ImportInstance.env) "keystores"
              "secrets" [] None ["in/keystore-b.json"; "in/keystore-b.json"]
              0%nat start ImportInstance_fsLaws) as (evs & Et & Hnd & _).
  exists evs. split; [exact Et|exact Hnd].
Defined.

(** Neither a keystore nor a directory: the empty string counts as absent. *)
Lemma handler_rejects_witness :
  let args := {| keystore := None; directory := Some "";
                 passphraseFile := None |} in
  truthy (keystore args) = None
  ∧ truthy (directory args) = None
  ∧ handler args start
    = (Raise (YargsError "Must supply either keystore or directory"), start).
Proof.
  intros args. split; [reflexivity|]. split; [reflexivity|].
  exact (proj1 (handler_rejects (H:=ImportInstance.env) args start)
           eq_refl eq_refl).
Defined.

(** The directory [in]: validator aa is skipped, validator bb is imported
    after the prompt, and the numbers are reported. *)
Example handler_imports_directory :
  let args := {| keystore := None; directory := Some "in";
                 passphraseFile := None |} in
  (handler args start).1 = Ok tt
  ∧ filter (λ ev, isReport ev = true ∨ isEffect ev = true)
      (trace (handler args start).2)
    = [ConsoleLog (MsgFound ["in/keystore-a.json"; "in/keystore-b.json"]
                     (Some "in") "keystores");
       Prompt "bb"; MkdirSync "secrets"; MkdirSync "keystores/0xbb";
       WriteFileSync "keystores/0xbb/voting-keystore.json" "bb";
       WriteValidatorPassphrase "secrets" "bb" "secret";
       ConsoleLog (MsgSummary 1 1); ConsoleLog MsgDoNotUse].
Proof. split; vm_compute; reflexivity. Qed.

End ImportExamples.

End ValidatorImportFacts.
